(** * gerrit-cli, [lib/git.js]: the process runner and the configuration store

    A shallow embedding of the synchronous wrapper around the [git]
    executable.  The executable itself is the only state boundary of the
    module: it is a parameter of the embedding ([spawn_sync]), and an
    in-memory executor ([GitSim]) stands in for it where a statement is
    about the contents of the configuration files. *)

From Stdlib Require Import List ZArith NArith Bool Arith Lia.
From Stdlib.Strings Require Byte.
Import ListNotations.

(** ** JavaScript strings

    A JavaScript string is a sequence of UTF-16 code units: [length],
    [substr], the character classes of regular expressions and
    [trimRight] all work on code units.  A code unit is a number below
    65536. *)

Definition char : Type := N.

Declare Scope char_scope.
Delimit Scope char_scope with char.
Bind Scope char_scope with char.

(** A character literal: one ASCII character between double quotes. *)
Definition parse_char (bs : list Byte.byte) : option N :=
  match bs with
  | [b] => if N.ltb (Byte.to_N b) 128 then Some (Byte.to_N b) else None
  | _ => None
  end.

Definition print_char (c : N) : option (list Byte.byte) := None.

String Notation N parse_char print_char : char_scope.

Module Char.

Definition eqb (a b : char) : bool := N.eqb a b.

End Char.

Module String.

Inductive string : Type :=
| EmptyString
| String (c : char) (s : string).

Fixpoint eqb (a b : string) : bool :=
  match a, b with
  | EmptyString, EmptyString => true
  | String x a', String y b' => Char.eqb x y && eqb a' b'
  | _, _ => false
  end.

Fixpoint append (a b : string) : string :=
  match a with
  | EmptyString => b
  | String c a' => String c (append a' b)
  end.

(** [s.length]: the number of code units. *)
Fixpoint length (s : string) : nat :=
  match s with
  | EmptyString => 0
  | String _ s' => S (length s')
  end.

(** [l.join(sep)]. *)
Fixpoint concat (sep : string) (l : list string) : string :=
  match l with
  | [] => EmptyString
  | [x] => x
  | x :: rest => append x (append sep (concat sep rest))
  end.

End String.
Export String.

Declare Scope js_scope.
Delimit Scope js_scope with js.
Bind Scope js_scope with string.

Notation "a ++ b" := (String.append a b) : js_scope.

Fixpoint of_units (l : list char) : string :=
  match l with
  | [] => EmptyString
  | c :: r => String c (of_units r)
  end.

(** The code units of a string. *)
Fixpoint chars (s : string) : list char :=
  match s with
  | EmptyString => []
  | String c r => c :: chars r
  end.

(** String literals are written in UTF-8 and stand for the code units
    of the text: a character outside the basic plane is its two
    surrogates. *)
Definition continuation (b : Byte.byte) : N := N.land (Byte.to_N b) 63.

Fixpoint decode_utf8 (fuel : nat) (bs : list Byte.byte) : list char :=
  match fuel with
  | O => []
  | S fuel =>
      match bs with
      | [] => []
      | b :: r =>
          let n := Byte.to_N b in
          if N.ltb n 128 then n :: decode_utf8 fuel r
          else if N.ltb n 224 then
            match r with
            | b1 :: r' =>
                (N.land n 31 * 64 + continuation b1)%N :: decode_utf8 fuel r'
            | _ => [65533%N]
            end
          else if N.ltb n 240 then
            match r with
            | b1 :: b2 :: r' =>
                (N.land n 15 * 4096 + continuation b1 * 64
                 + continuation b2)%N :: decode_utf8 fuel r'
            | _ => [65533%N]
            end
          else
            match r with
            | b1 :: b2 :: b3 :: r' =>
                let cp := (N.land n 7 * 262144 + continuation b1 * 4096
                           + continuation b2 * 64 + continuation b3
                           - 65536)%N in
                (55296 + N.div cp 1024)%N :: (56320 + N.modulo cp 1024)%N
                :: decode_utf8 fuel r'
            | _ => [65533%N]
            end
      end
  end.

Definition parse_string (bs : list Byte.byte) : string :=
  of_units (decode_utf8 (List.length bs) bs).

Fixpoint print_string (s : string) : option (list Byte.byte) :=
  match s with
  | EmptyString => Some []
  | String c r =>
      if N.ltb c 128
      then match Byte.of_N c, print_string r with
           | Some b, Some bs => Some (b :: bs)
           | _, _ => None
           end
      else None
  end.

String Notation string parse_string print_string : js_scope.

Local Open Scope js_scope.
Local Open Scope list_scope.

(** ** JavaScript and lodash primitives used by [git.js] *)

Module Js.

(** An argument as a caller may pass it: a string, or an array (or
    [arguments] object) grouping further arguments. *)
#[warnings="-register-all"]
Inductive arg : Type :=
| Str (s : string)
| Group (l : list arg).

(** [_.flattenDeep]: recursively flattens every array-like element. *)
Fixpoint flattenDeep1 (a : arg) : list string :=
  match a with
  | Str s => [s]
  | Group l => flat_map flattenDeep1 l
  end.

Definition flattenDeep (args : list arg) : list string :=
  flat_map flattenDeep1 args.

(** [_.flatten]: flattens a single level. *)
Definition flatten1 (a : arg) : list arg :=
  match a with
  | Str s => [Str s]
  | Group l => l
  end.

Definition flatten (args : list arg) : list arg :=
  flat_map flatten1 args.

(** Nesting depth of an argument: 0 for a string. *)
Fixpoint depth (a : arg) : nat :=
  match a with
  | Str _ => 0
  | Group l => S (fold_right (fun x m => Nat.max (depth x) m) 0 l)
  end.

(** The line terminators of JavaScript: LF, CR, U+2028 and U+2029. *)
Definition line_terminator (c : char) : bool :=
  existsb (N.eqb c) [10; 13; 8232; 8233]%N.

(** White space as [String.prototype.trimRight] and the class [\s] see
    it: the white space characters of JavaScript (TAB, VT, FF, SPACE,
    U+00A0, U+FEFF and the space separators U+1680, U+2000 to U+200A,
    U+202F, U+205F and U+3000) and the line terminators. *)
Definition is_space (c : char) : bool :=
  existsb (N.eqb c) [9; 11; 12; 32; 160; 5760; 8239; 8287; 12288; 65279]%N
  || (N.leb 8192 c && N.leb c 8202)
  || line_terminator c.

Fixpoint trimRight (s : string) : string :=
  match s with
  | EmptyString => EmptyString
  | String c r =>
      match trimRight r with
      | EmptyString => if is_space c then EmptyString else String c EmptyString
      | r' => String c r'
      end
  end.

Definition LF : char := 10%N.
Definition CR : char := 13%N.
Definition SP : char := 32%N.
Definition DOT : char := 46%N.

(** The line separator U+2028, a line terminator of JavaScript. *)
Definition LS : char := 8232%N.

(** [s.split(sep)] for a one-character separator: always at least one
    piece, the empty string splits into one empty piece. *)
Fixpoint split (sep : char) (s : string) : list string :=
  match s with
  | EmptyString => [EmptyString]
  | String c r =>
      if Char.eqb c sep then EmptyString :: split sep r
      else match split sep r with
           | piece :: pieces => String c piece :: pieces
           | [] => [String c EmptyString]
           end
  end.

Definition mem (x : string) (l : list string) : bool :=
  existsb (String.eqb x) l.

(** [_.difference(array, values)]: the elements of [array] that are not
    in [values], in the order of [array]; repeated elements of [array]
    are kept. *)
Definition difference (array values : list string) : list string :=
  filter (fun x => negb (mem x values)) array.

(** [_.intersection(array, other)]: lodash's loop over [array], which
    runs while the result is shorter than the shortest of the two
    arrays and pushes an element to the result when it is not in the
    result yet and is in [other]. *)
Fixpoint intersection_loop (maxLength : nat) (array other result : list string)
  : list string :=
  match array with
  | [] => result
  | x :: rest =>
      if Nat.ltb (List.length result) maxLength
      then if negb (mem x result) && mem x other
           then intersection_loop maxLength rest other (result ++ [x])
           else intersection_loop maxLength rest other result
      else result
  end.

Definition intersection (array other : list string) : list string :=
  intersection_loop (Nat.min (List.length array) (List.length other))
    array other [].

(** [String(a)] for an argument: an array is its elements joined by
    commas. *)
Fixpoint arg_to_string (a : arg) : string :=
  match a with
  | Str s => s
  | Group l => String.concat "," (map arg_to_string l)
  end.

(** [s.substr(n)]. *)
Fixpoint substr (n : nat) (s : string) : string :=
  match n, s with
  | 0, _ => s
  | S n', String _ r => substr n' r
  | S _, EmptyString => EmptyString
  end.

Definition contains (c : char) (s : string) : bool :=
  existsb (Char.eqb c) (chars s).

(** [s.replace(/\.[^.]*$/, "")]: removes the last dot and what follows
    it; a string without a dot is returned as it is. *)
Fixpoint strip_last_dot (s : string) : string :=
  match s with
  | EmptyString => EmptyString
  | String c r =>
      if Char.eqb c DOT && negb (contains DOT r) then EmptyString
      else String c (strip_last_dot r)
  end.

End Js.
Import Js.

(** ** The process runner *)

(** What [spawn.sync] returns. *)
Record SpawnResult : Type := mkSpawnResult {
  status : Z;
  stdout : string;
  stderr : string
}.

(** [GitError(code, command, output, error)]; [command] is [None] when
    the constructor is given [undefined]. *)
Record GitError : Type := mkGitError {
  code : Z;
  command : option arg;
  output : string;
  error : string
}.

Inductive exn : Type :=
| GitErr (e : GitError)
| TypeError.

Inductive outcome (A : Type) : Type :=
| Ok (a : A)
| Throw (e : exn).
Arguments Ok {A} a.
Arguments Throw {A} e.

(** ** Values of the configuration store's interface *)

(** The option bag of the [git.config] functions.  Every default is
    [false] and the code only tests the fields for truthiness, so
    [_.extend({}, defaults, options)] is the bag itself and an absent
    or [undefined] bag is [no_options]. *)
Record options : Type := mkOptions {
  global : bool;
  local : bool;
  all : bool;
  regex : bool;
  add : bool;
  unique : bool
}.

Definition no_options : options :=
  mkOptions false false false false false false.

(** [_.extend({}, options, {all: true})] and its siblings. *)
Definition with_all (o : options) : options :=
  mkOptions (global o) (local o) true (regex o) (add o) (unique o).

Definition with_regex (o : options) : options :=
  mkOptions (global o) (local o) (all o) true (add o) (unique o).

Definition with_add (o : options) : options :=
  mkOptions (global o) (local o) (all o) (regex o) true (unique o).

(** A JavaScript value as [git.config] may receive it for [values] or
    [options]. *)
Inductive jsval : Type :=
| JUndefined
| JStr (s : string)
| JArr (l : list string)
| JObj (o : options).

Definition isString (v : jsval) : bool :=
  match v with JStr _ => true | _ => false end.

Definition isArrayVal (v : jsval) : bool :=
  match v with JArr _ => true | _ => false end.

Definition isUndefined (v : jsval) : bool :=
  match v with JUndefined => true | _ => false end.

(** The option bag a function sees when it is handed [v] as [options]:
    extending the defaults with a string, an array or [undefined] sets
    none of the named fields. *)
Definition options_of (v : jsval) : options :=
  match v with
  | JObj o => o
  | _ => no_options
  end.

(** [_.castArray(values)].  A value that is neither a string nor an
    array is carried as the string the process boundary converts it
    to. *)
Definition castArray (v : jsval) : list string :=
  match v with
  | JArr l => l
  | JStr s => [s]
  | JUndefined => ["undefined"]
  | JObj _ => ["[object Object]"]
  end.

(** The object that the regex mode of [git.config.get] builds: its own
    properties in insertion order, each an array whose elements are
    strings or [undefined] ([None]). *)
Definition jsobject : Type := list (string * list (option string)).

(** What [git.config.get] returns. *)
Inductive getres : Type :=
| GNull
| GStr (s : string)
| GList (l : list string)
| GMap (m : jsobject).

(** What [git.config] returns: the result of the read or of the write
    it dispatched to. *)
Inductive config_result : Type :=
| Read (r : getres)
| Written (l : list string).

(** Property names every object inherits from [Object.prototype]: for
    these [output[k]] is truthy on the empty object and has no [push]. *)
Definition object_prototype_keys : list string :=
  ["constructor"; "__defineGetter__"; "__defineSetter__"; "hasOwnProperty";
   "__lookupGetter__"; "__lookupSetter__"; "isPrototypeOf";
   "propertyIsEnumerable"; "toString"; "valueOf"; "__proto__";
   "toLocaleString"].

Fixpoint own (k : string) (o : jsobject) : option (list (option string)) :=
  match o with
  | [] => None
  | (k', vs) :: rest => if String.eqb k' k then Some vs else own k rest
  end.

(** [output[k].push(v)] on an own property [k]. *)
Fixpoint push_at (k : string) (v : option string) (o : jsobject) : jsobject :=
  match o with
  | [] => []
  | (k', vs) :: rest =>
      if String.eqb k' k then (k', vs ++ [v]) :: rest
      else (k', vs) :: push_at k v rest
  end.

(** [.] of a regular expression without the [s] flag matches every
    code unit but a line terminator. *)
Definition dot_matches (c : char) : bool := negb (line_terminator c).

(** The [line.match] of the regex mode.  Its pattern is anchored at
    both ends: a lazy run of [.] (group 1), then optionally a space
    followed by a greedy run of [.] (group 3).  [None] stands for
    [null], otherwise the groups 1 and 3 are returned.  At each
    position the optional group is tried first (a space, then the rest
    of the line up to its end), then the end of the line, then one
    more character for the lazy group 1. *)
Fixpoint match_line (line : string) : option (string * option string) :=
  match line with
  | EmptyString => Some (EmptyString, None)
  | String c r =>
      if Char.eqb c SP && forallb dot_matches (chars r)
      then Some (EmptyString, Some r)
      else if dot_matches c
      then match match_line r with
           | Some (k, v) => Some (String c k, v)
           | None => None
           end
      else None
  end.

(** The body of the [lines.forEach] callback of the regex mode. *)
Definition regex_line (output : jsobject) (line : string) : outcome jsobject :=
  match match_line line with
  | None => Throw TypeError
  | Some (m1, m3) =>
      match own m1 output with
      | Some _ => Ok (push_at m1 m3 output)
      | None =>
          if mem m1 object_prototype_keys then Throw TypeError
          else Ok (output ++ [(m1, [m3])])
      end
  end.

Fixpoint regex_lines (output : jsobject) (lines : list string) : outcome jsobject :=
  match lines with
  | [] => Ok output
  | line :: rest =>
      match regex_line output line with
      | Ok output' => regex_lines output' rest
      | Throw e => Throw e
      end
  end.

(** The decimal numeral of a number. *)
Fixpoint numeral (d : Decimal.uint) : string :=
  match d with
  | Decimal.Nil => EmptyString
  | Decimal.D0 d' => String 48%N (numeral d')
  | Decimal.D1 d' => String 49%N (numeral d')
  | Decimal.D2 d' => String 50%N (numeral d')
  | Decimal.D3 d' => String 51%N (numeral d')
  | Decimal.D4 d' => String 52%N (numeral d')
  | Decimal.D5 d' => String 53%N (numeral d')
  | Decimal.D6 d' => String 54%N (numeral d')
  | Decimal.D7 d' => String 55%N (numeral d')
  | Decimal.D8 d' => String 56%N (numeral d')
  | Decimal.D9 d' => String 57%N (numeral d')
  end.

(** Decimal index names ["0"; "1"; ...] of an array-like of length [n]. *)
Definition index_keys (n : nat) : list string :=
  map (fun i => numeral (Nat.to_uint i)) (seq 0 n).

(** The class [0-9]. *)
Definition is_digit (c : char) : bool := N.leb 48 c && N.leb c 57.

(** The number that a string of digits writes. *)
Fixpoint digits_value (acc : N) (s : string) : option N :=
  match s with
  | EmptyString => Some acc
  | String c r =>
      if is_digit c then digits_value (acc * 10 + (c - 48)) r else None
  end.

(** A property name that is an array index: the canonical numeral (no
    leading zero) of a number below [2^32 - 1]. *)
Definition array_index (k : string) : option N :=
  match k with
  | EmptyString => None
  | String c r =>
      if Char.eqb c "0" && negb (String.eqb r "") then None
      else match digits_value 0 k with
           | Some n => if N.ltb n 4294967295 then Some n else None
           | None => None
           end
  end.

(** The names that are array indices, with their numbers. *)
Fixpoint indexed (names : list string) : list (N * string) :=
  match names with
  | [] => []
  | k :: rest =>
      match array_index k with
      | Some n => (n, k) :: indexed rest
      | None => indexed rest
      end
  end.

Fixpoint insert_index (x : N * string) (l : list (N * string))
  : list (N * string) :=
  match l with
  | [] => [x]
  | y :: r => if N.leb (fst x) (fst y) then x :: l else y :: insert_index x r
  end.

(** The order in which JavaScript enumerates the own property names of
    an object: the array indices in ascending numeric order, then the
    other names in the order of their creation. *)
Definition own_keys (o : jsobject) : list string :=
  let names := map fst o in
  map snd (fold_right insert_index [] (indexed names))
  ++ filter (fun k => match array_index k with None => true | Some _ => false end)
       names.

(** [_.keys]: own enumerable property names. *)
Definition keys (r : config_result) : list string :=
  match r with
  | Read GNull => []
  | Read (GStr s) => index_keys (String.length s)
  | Read (GList l) => index_keys (List.length l)
  | Read (GMap m) => own_keys m
  | Written l => index_keys (List.length l)
  end.

(** The second argument of [_.difference] and [_.intersection]: only
    an array contributes elements. *)
Definition array_like (r : getres) : list string :=
  match r with
  | GList l => l
  | _ => []
  end.

Definition scope_flags (o : options) : list string :=
  (if global o then ["--global"] else []) ++
  (if local o then ["--local"] else []).

(** The [flags] array of [git.config.get]. *)
Definition get_flags (o : options) : list string :=
  scope_flags o ++
  (if all o then ["--get-all"] else []) ++
  (if regex o then ["--get-regexp"] else []).

Section Runner.

(** The state of the world outside the process (the configuration
    files) and the executable: [spawn.sync("git", args, ...)]. *)
Variable World : Type.
Variable spawn_sync : list string -> World -> SpawnResult * World.

(** Computations that read and change the world and may throw. *)
Definition M (A : Type) : Type := World -> outcome A * World.

Definition ret {A} (a : A) : M A := fun w => (Ok a, w).

Definition bind {A B} (m : M A) (f : A -> M B) : M B :=
  fun w =>
    match m w with
    | (Ok a, w') => f a w'
    | (Throw e, w') => (Throw e, w')
    end.

(** [try { m } catch (e) { h }] where the handler ignores [e]. *)
Definition try_catch {A} (m : M A) (h : M A) : M A :=
  fun w =>
    match m w with
    | (Ok a, w') => (Ok a, w')
    | (Throw _, w') => h w'
    end.

(** [l.forEach(f)] for a callback that may throw. *)
Fixpoint forEach {A} (l : list A) (f : A -> M unit) : M unit :=
  match l with
  | [] => ret tt
  | x :: rest => bind (f x) (fun _ => forEach rest f)
  end.

(** [git.run]: [arguments] is the list of the call's actual arguments. *)
Definition run (arguments : list arg) (w : World) : SpawnResult * World :=
  let args := flattenDeep arguments in
  spawn_sync args w.

(** [git.exec]: hands its own [arguments] object to [git.run] as one
    argument; the formal parameter [args] is the first actual argument. *)
Definition exec (arguments : list arg) : M string :=
  fun w =>
    let args := hd_error arguments in
    let (result, w') := run [Group arguments] w in
    if negb (status result =? 0)%Z
    then (Throw (GitErr (mkGitError (status result) args
                           (trimRight (stdout result))
                           (trimRight (stderr result)))), w')
    else (Ok (trimRight (stdout result)), w').

(** [git.execSuccess]. *)
Definition execSuccess (arguments : list arg) (w : World) : bool * World :=
  let (result, w') := run [Group arguments] w in
  ((status result =? 0)%Z, w').

(** [git.show], the argument list it spawns the child with:
    [_.flatten(_.isArray(args) ? args : arguments)]. *)
Definition show_args (arguments : list arg) : list arg :=
  match arguments with
  | Group l :: _ => flatten l
  | _ => flatten arguments
  end.

(** [git.config.get]. *)
Definition config_get (key : string) (o : options) : M getres :=
  fun w =>
    let flags := get_flags o in
    match exec [Str "config"; Group (map Str flags); Str key] w with
    | (Throw _, w') =>
        if all o || regex o then (Ok (GList []), w') else (Ok GNull, w')
    | (Ok output, w') =>
        if all o then (Ok (GList (split LF output)), w')
        else if regex o then
          match regex_lines [] (split LF output) with
          | Ok m => (Ok (GMap m), w')
          | Throw e => (Throw e, w')
          end
        else (Ok (GStr output), w')
    end.

(** [git.config.unset]. *)
Definition config_unset (key : string) (o : options) : M unit :=
  let flags := scope_flags o in
  bind (exec [Str "config"; Str "--unset-all"; Group (map Str flags); Str key])
       (fun _ => ret tt).

(** [git.config.set]. *)
Definition config_set (key : string) (values : jsval) (o : options)
  : M (list string) :=
  let flags := scope_flags o ++ ["--add"] in
  let values := castArray values in
  bind (if negb (add o)
        then bind (try_catch (config_unset key o) (ret tt))
                  (fun _ => ret values)
        else if unique o
        then bind (config_get key (with_all o))
                  (fun currentValues =>
                     ret (difference values (array_like currentValues)))
        else ret values)
       (fun values =>
          bind (forEach values
                  (fun val =>
                     bind (exec [Str "config"; Group (map Str flags);
                                 Str key; Str val])
                          (fun _ => ret tt)))
               (fun _ => ret values)).

(** [git.config.add]. *)
Definition config_add (key : string) (values : jsval) (o : options)
  : M (list string) :=
  config_set key values (with_add o).

(** [git.config.unsetMatching]. *)
Definition config_unsetMatching (key : string) (values : jsval) (o : options)
  : M (list string) :=
  let flags := scope_flags o in
  let values := castArray values in
  bind (config_get key (with_all o))
       (fun currentValues =>
          let values := intersection values (array_like currentValues) in
          bind (forEach values
                  (fun val =>
                     bind (exec [Str "config"; Str "--unset";
                                 Group (map Str flags); Str key;
                                 Str ("^" ++ val ++ "$")%js])
                          (fun _ => ret tt)))
               (fun _ => ret values)).

(** [git.config], called with the key and the list [rest] of the
    further actual arguments: [arguments.length] is [1 + length rest]. *)
Definition config (key : string) (rest : list jsval) : M config_result :=
  let values := nth 0 rest JUndefined in
  let options := nth 1 rest JUndefined in
  let '(values, options) :=
    if Nat.eqb (List.length rest) 1 && negb (isString values)
       && negb (isArrayVal values)
    then (JUndefined, values)
    else (values, options) in
  if isUndefined values
  then bind (config_get key (options_of options)) (fun r => ret (Read r))
  else bind (config_set key values (options_of options))
            (fun l => ret (Written l)).

(** [git.config.subsections]. *)
Definition config_subsections (section : string) (o : options)
  : M (list string) :=
  let options := with_regex o in
  bind (config ("^" ++ section ++ "\.")%js [JObj options])
       (fun configs =>
          ret (map (fun subsection =>
                      strip_last_dot
                        (substr (String.length section + 1) subsection))
                   (keys configs))).

(** [git.config.sectionExists]: [_.isEmpty] of the regex read. *)
Definition config_sectionExists (section : string) (o : options) : M bool :=
  bind (config_get ("^" ++ section ++ "\.")%js (with_regex o))
       (fun result =>
          ret (negb (match result with
                     | GNull => true
                     | GStr s => String.eqb s ""
                     | GList l => Nat.eqb (List.length l) 0
                     | GMap m => Nat.eqb (List.length m) 0
                     end))).

(** [git.show], the handler of the child's exit code: on a non-zero
    code the error carries every argument, quoted and joined by
    spaces. *)
Definition show_close (args : list arg) (bufStdErr : string) (code : Z)
  : outcome unit :=
  if negb (code =? 0)%Z
  then let errOutput := trimRight bufStdErr in
       let concatArgs :=
         String.concat " "
           (map (fun a => ("'" ++ arg_to_string a ++ "'")%js) args) in
       Throw (GitErr (mkGitError code (Some (Str concatArgs)) "" errOutput))
  else Ok tt.

End Runner.

Arguments ret {World A} a w.
Arguments bind {World A B} m f w.
Arguments try_catch {World A} m h w.
Arguments forEach {World A} l f w.
Arguments run {World} spawn_sync arguments w.
Arguments exec {World} spawn_sync arguments w.
Arguments execSuccess {World} spawn_sync arguments w.
Arguments config_get {World} spawn_sync key o w.
Arguments config_unset {World} spawn_sync key o w.
Arguments config_set {World} spawn_sync key values o w.
Arguments config_add {World} spawn_sync key values o w.
Arguments config_unsetMatching {World} spawn_sync key values o w.
Arguments config {World} spawn_sync key rest w.
Arguments config_subsections {World} spawn_sync section o w.
Arguments config_sectionExists {World} spawn_sync section o w.

(** ** An in-memory executor

    A model of the part of [git config] that [git.js] drives, to run
    the wrapper against: two configuration files, each the ordered list
    of the [(key, value)] entries that git reads from it, and a log of
    the command lines received.  A key is a section, an optional
    subsection and a variable name, separated by dots; the section and
    the name are made of letters, digits and dashes and are stored in
    lower case.  The leading arguments that start with a dash are the
    options and the remaining ones the positional arguments; value
    patterns are the subset of POSIX extended regular expressions made
    of characters, [\]-escapes, [.], a postfix star and the two
    anchors. *)

Module GitSim.

Definition entry : Type := (string * string)%type.

Record world : Type := mkWorld {
  global_file : list entry;
  local_file : list entry;
  log : list (list string)
}.

Definition empty : world := mkWorld [] [] [].

(** *** Patterns *)

Inductive token : Type :=
| TChar (c : char)
| TDot
| TStar
| TCaret
| TDollar.

Fixpoint lex (s : string) : list token :=
  match s with
  | EmptyString => []
  | String c r =>
      match c with
      | 92 => match r with
              | String c' r' => TChar c' :: lex r'
              | EmptyString => [TChar c]
              end
      | 46 => TDot :: lex r
      | 42 => TStar :: lex r
      | 94 => TCaret :: lex r
      | 36 => TDollar :: lex r
      | _ => TChar c :: lex r
      end%N
  end.

Definition token_matches (t : token) (c : char) : bool :=
  match t with
  | TChar c' => Char.eqb c' c
  | TDot => true
  | TStar => Char.eqb c (42%N)
  | TCaret => Char.eqb c (94%N)
  | TDollar => Char.eqb c (36%N)
  end.

(** [star t k text]: zero or more characters matched by [t], then [k]. *)
Fixpoint star (t : token) (k : list char -> bool) (text : list char) : bool :=
  k text ||
  match text with
  | c :: text' => token_matches t c && star t k text'
  | [] => false
  end.

Definition is_dollar (t : token) : bool :=
  match t with TDollar => true | _ => false end.

(** Does [re] match a prefix of [text]? *)
Fixpoint match_here (re : list token) : list char -> bool :=
  match re with
  | [] => fun _ => true
  | t :: re1 =>
      match re1 with
      | TStar :: re2 => star t (match_here re2)
      | [] =>
          fun text =>
            if is_dollar t
            then match text with [] => true | _ => false end
            else match text with
                 | c :: _ => token_matches t c
                 | [] => false
                 end
      | _ :: _ =>
          fun text =>
            match text with
            | c :: text' => token_matches t c && match_here re1 text'
            | [] => false
            end
      end
  end.

Fixpoint match_anywhere (re : list token) (text : list char) : bool :=
  match_here re text ||
  match text with
  | _ :: text' => match_anywhere re text'
  | [] => false
  end.

Definition re_match (pattern text : string) : bool :=
  match lex pattern with
  | TCaret :: re => match_here re (chars text)
  | re => match_anywhere re (chars text)
  end.

(** *** Arguments

    The runtime hands the arguments over as UTF-8: a surrogate that is
    not half of a pair becomes U+FFFD, and an argument that holds a NUL
    is not handed over. *)

Definition NUL : char := 0%N.

Definition high_surrogate (c : char) : bool := N.leb 55296 c && N.leb c 56319.

Definition low_surrogate (c : char) : bool := N.leb 56320 c && N.leb c 57343.

Fixpoint to_well_formed (s : string) : string :=
  match s with
  | EmptyString => EmptyString
  | String c r =>
      if high_surrogate c
      then match r with
           | String d r' =>
               if low_surrogate d
               then String c (String d (to_well_formed r'))
               else String 65533%N (to_well_formed r)
           | EmptyString => String 65533%N EmptyString
           end
      else if low_surrogate c then String 65533%N (to_well_formed r)
      else String c (to_well_formed r)
  end.

(** Text that reaches the executable as it is. *)
Definition passable (s : string) : bool :=
  String.eqb (to_well_formed s) s && negb (contains NUL s).

(** *** Keys *)

Definition is_alpha (c : char) : bool :=
  (N.leb 65 c && N.leb c 90) || (N.leb 97 c && N.leb c 122).

Definition is_keychar (c : char) : bool :=
  is_alpha c || is_digit c || Char.eqb c "-".

Definition to_lower (c : char) : char :=
  if N.leb 65 c && N.leb c 90 then (c + 32)%N else c.

Fixpoint lower (s : string) : string :=
  match s with
  | EmptyString => EmptyString
  | String c r => String (to_lower c) (lower r)
  end.

(** A key cut at its last dot. *)
Fixpoint split_last_dot (s : string) : option (string * string) :=
  match s with
  | EmptyString => None
  | String c r =>
      match split_last_dot r with
      | Some (base, name) => Some (String c base, name)
      | None => if Char.eqb c DOT then Some (EmptyString, r) else None
      end
  end.

(** What comes before the first dot, and the rest from that dot on. *)
Fixpoint before_dot (s : string) : string :=
  match s with
  | EmptyString => EmptyString
  | String c r => if Char.eqb c DOT then EmptyString else String c (before_dot r)
  end.

Fixpoint from_dot (s : string) : string :=
  match s with
  | EmptyString => EmptyString
  | String c r => if Char.eqb c DOT then s else from_dot r
  end.

(** The exit status and the message for a key that is refused. *)
Definition key_error (key : string) : option (Z * string) :=
  match split_last_dot key with
  | None => Some (2%Z, ("error: key does not contain a section: " ++ key)%js)
  | Some (base, name) =>
      if String.eqb base ""
      then Some (2%Z, ("error: key does not contain a section: " ++ key)%js)
      else if String.eqb name ""
      then Some (2%Z, ("error: key does not contain variable name: " ++ key)%js)
      else if negb (forallb is_keychar (chars (before_dot base)))
      then Some (1%Z, ("error: invalid key: " ++ key)%js)
      else if contains LF (from_dot base)
      then Some (1%Z, ("error: invalid key (newline): " ++ key)%js)
      else if match name with
              | String c _ => is_alpha c && forallb is_keychar (chars name)
              | EmptyString => false
              end
      then None
      else Some (1%Z, ("error: invalid key: " ++ key)%js)
  end.

(** The key as it is stored and compared: the section and the variable
    name in lower case. *)
Definition canon (key : string) : string :=
  match split_last_dot key with
  | Some (base, name) =>
      (lower (before_dot base) ++ from_dot base ++ String DOT (lower name))%js
  | None => key
  end.

(** A key that names values of a file: accepted, and in the form in
    which it is stored. *)
Definition store_key (key : string) : bool :=
  match key_error key with
  | None => String.eqb (canon key) key && passable key
  | Some _ => false
  end.

(** The section of a key, with its subsection. *)
Definition section_of (key : string) : string :=
  match split_last_dot key with
  | Some (base, _) => base
  | None => EmptyString
  end.

(** *** The files *)

Definition lookup (key : string) (f : list entry) : list string :=
  map snd (filter (fun e => String.eqb (fst e) key) f).

(** The values that a file holds for a key. *)
Definition values_of (key : string) (f : list entry) : list string :=
  if store_key key then lookup key f else [].

Definition remove_key (key : string) (f : list entry) : list entry :=
  filter (fun e => negb (String.eqb (fst e) key)) f.

Definition hits (key pattern : string) (e : entry) : bool :=
  String.eqb (fst e) key && re_match pattern (snd e).

Definition remove_hits (key pattern : string) (f : list entry) : list entry :=
  filter (fun e => negb (hits key pattern e)) f.

Definition same_section (key : string) (e : entry) : bool :=
  String.eqb (section_of (fst e)) (section_of key).

(** A new entry goes after the last entry of its section, and at the
    end of the file when the file has no entry of the section. *)
Fixpoint insert_entry (e : entry) (f : list entry) : list entry :=
  match f with
  | [] => [e]
  | x :: r =>
      if same_section (fst e) x && negb (existsb (same_section (fst e)) r)
      then x :: e :: r
      else x :: insert_entry e r
  end.

Definition print_values (vs : list string) : string :=
  fold_right (fun v out => v ++ String LF out)%js EmptyString vs.

Definition print_entries (es : list entry) : string :=
  fold_right (fun e out => fst e ++ String SP (snd e ++ String LF out))%js
             EmptyString es.

(** *** Command lines *)

Definition is_option (s : string) : bool :=
  match s with
  | String c _ => Char.eqb c "-"
  | EmptyString => false
  end.

Fixpoint leading_options (args : list string) : list string * list string :=
  match args with
  | a :: rest =>
      if is_option a
      then let (os, ps) := leading_options rest in (a :: os, ps)
      else ([], args)
  | [] => ([], [])
  end.

Definition is_scope_flag (s : string) : bool :=
  String.eqb s "--global" || String.eqb s "--local".

Definition known_action (s : string) : bool :=
  mem s ["--add"; "--unset"; "--unset-all"; "--get-all"; "--get-regexp"].

Definition ok (out : string) : SpawnResult := mkSpawnResult 0 out "".

Definition failed (st : Z) (msg : string) : SpawnResult :=
  mkSpawnResult st "" (msg ++ String LF EmptyString)%js.

(** The file a write goes to and the entries a read sees. *)
Definition write_file (g : bool) (w : world) : list entry :=
  if g then global_file w else local_file w.

Definition with_write_file (g : bool) (f : list entry) (w : world) : world :=
  if g then mkWorld f (local_file w) (log w)
  else mkWorld (global_file w) f (log w).

Definition read_view (g l : bool) (w : world) : list entry :=
  if g then global_file w
  else if l then local_file w
  else global_file w ++ local_file w.

Definition config_cmd (args : list string) (w : world) : SpawnResult * world :=
  let (opts, pos) := leading_options args in
  let g := mem "--global" opts in
  let l := mem "--local" opts in
  let actions := filter (fun o => negb (is_scope_flag o)) opts in
  if negb (forallb known_action actions)
  then (failed 129 "error: unknown option", w)
  else if g && l
  then (failed 129 "error: only one config file at a time", w)
  else
    match actions, pos with
    | [], [key] =>
        match key_error key with
        | Some (_, msg) => (failed 1 msg, w)
        | None =>
            match rev (lookup (canon key) (read_view g l w)) with
            | v :: _ => (ok (v ++ String LF EmptyString)%js, w)
            | [] => (failed 1 "", w)
            end
        end
    | ["--get-all"], [key] =>
        match key_error key with
        | Some (_, msg) => (failed 1 msg, w)
        | None =>
            match lookup (canon key) (read_view g l w) with
            | [] => (failed 1 "", w)
            | vs => (ok (print_values vs), w)
            end
        end
    | ["--get-regexp"], [pattern] =>
        match filter (fun e => re_match pattern (fst e)) (read_view g l w) with
        | [] => (failed 1 "", w)
        | es => (ok (print_entries es), w)
        end
    | ["--add"], [key; value] =>
        match key_error key with
        | Some (st, msg) => (failed st msg, w)
        | None =>
            (ok "", with_write_file g
                      (insert_entry (canon key, value) (write_file g w)) w)
        end
    | ["--unset-all"], [key] =>
        match key_error key with
        | Some (st, msg) => (failed st msg, w)
        | None =>
            match lookup (canon key) (write_file g w) with
            | [] => (failed 5 "", w)
            | _ => (ok "", with_write_file g
                             (remove_key (canon key) (write_file g w)) w)
            end
        end
    | ["--unset"], [key; pattern] =>
        match key_error key with
        | Some (st, msg) => (failed st msg, w)
        | None =>
            match filter (hits (canon key) pattern) (write_file g w) with
            | [_] => (ok "", with_write_file g
                               (remove_hits (canon key) pattern
                                  (write_file g w)) w)
            | [] => (failed 5 "", w)
            | _ => (failed 5 "warning: key has multiple values", w)
            end
        end
    | _, _ => (failed 129 "usage: git config [<options>]", w)
    end.

Definition logged (args : list string) (w : world) : world :=
  mkWorld (global_file w) (local_file w) (log w ++ [args]).

Definition dispatch (args : list string) (w : world) : SpawnResult * world :=
  match args with
  | "config" :: rest => config_cmd rest w
  | _ => (failed 1 "git: not a git command", w)
  end.

(** [spawn.sync("git", args)] against the model. *)
Definition git (args : list string) (w : world) : SpawnResult * world :=
  let w := logged args w in
  if existsb (contains NUL) args
  then (failed 1 "error: argument with a null byte", w)
  else dispatch (map to_well_formed args) w.

End GitSim.

(** ** Vocabulary of the statements *)

Section Vocabulary.

Context {World : Type} (spawn_sync : list string -> World -> SpawnResult * World).

(** The command line of the lookup that [git.config.get] runs. *)
Definition get_command (key : string) (o : options) : list string :=
  "config" :: get_flags o ++ [key].

(** The values that [config.set] in unique mode reads back for the
    key before it writes. *)
Definition current_values (key : string) (o : options) (w : World)
  : list string :=
  match fst (config_get spawn_sync key (with_all o) w) with
  | Ok r => array_like r
  | Throw _ => []
  end.

(** The values that [config.set] goes on to write. *)
Definition values_to_write (key : string) (values : jsval) (o : options)
    (w : World) : list string :=
  if add o && unique o
  then difference (castArray values) (current_values key o w)
  else castArray values.

End Vocabulary.

(** The protocol of a regex read as the specification words it: each
    line is split at its first space into the key and the rest of the
    line; a line without a space has no value ([None], JavaScript's
    [undefined]). *)
Fixpoint split_first_space (line : string) : string * option string :=
  match line with
  | EmptyString => (EmptyString, None)
  | String c r =>
      if Char.eqb c SP then (EmptyString, Some r)
      else let (k, v) := split_first_space r in (String c k, v)
  end.

Definition line_key (line : string) : string := fst (split_first_space line).

(** The values that the lines of key [k] contribute, in line order. *)
Definition values_for (k : string) (lines : list string) : list (option string) :=
  map snd (filter (fun p => String.eqb (fst p) k) (map split_first_space lines)).

(** Keys in the order of their first appearance. *)
Fixpoint first_seen (ks seen : list string) : list string :=
  match ks with
  | [] => seen
  | k :: rest => first_seen rest (if mem k seen then seen else seen ++ [k])
  end.

Definition first_keys (lines : list string) : list string :=
  first_seen (map line_key lines) [].

(** A line that the regex mode can take in: no line terminator in it,
    and a key that is not a name inherited from [Object.prototype]. *)
Definition parsable_line (line : string) : bool :=
  forallb dot_matches (chars line)
  && negb (mem (line_key line) object_prototype_keys).

(** The lines of the trimmed standard output of a command. *)
Definition output_lines (result : SpawnResult) : list string :=
  split LF (trimRight (stdout result)).

(** One step of the accumulation of the regex mode, on a split line. *)
Definition add_line (m : jsobject) (p : string * option string) : jsobject :=
  match own (fst p) m with
  | Some _ => push_at (fst p) (snd p) m
  | None => m ++ [(fst p, [snd p])]
  end.

(** The subsection name of a key of the section. *)
Definition subsection_of (section key : string) : string :=
  strip_last_dot (substr (String.length section + 1) key).

(** The pattern of the keys of a section. *)
Definition section_pattern (section : string) : string :=
  ("^" ++ section ++ "\.")%js.

(** A store with the three keys of two remotes. *)
Definition remote_example : GitSim.world :=
  GitSim.mkWorld []
    [("remote.origin.url", "https://example.org/a.git");
     ("remote.origin.fetch", "+refs/heads/*:refs/remotes/origin/*");
     ("remote.upstream.url", "https://example.org/b.git")]
    [].

(** A store with a branch that has a remote and a description. *)
Definition described_branch (description : string) : GitSim.world :=
  GitSim.mkWorld []
    [("branch.master.remote", "origin");
     ("branch.master.description", description)]
    [].

(** The command lines of the writes of [git.config.set] and of the
    removals of [git.config.unset] and [git.config.unsetMatching]. *)
Definition add_command (key : string) (o : options) (val : string) : list string :=
  "config" :: scope_flags o ++ ["--add"; key; val].

Definition unset_all_command (key : string) (o : options) : list string :=
  "config" :: "--unset-all" :: scope_flags o ++ [key].

Definition unset_command (key : string) (o : options) (val : string) : list string :=
  "config" :: "--unset" :: scope_flags o ++ [key; ("^" ++ val ++ "$")%js].

(** The scopes: at most one of [global] and [local]. *)
Definition one_scope (o : options) : bool := negb (global o && local o).

(** The effect on the model of a successful write of one value and
    of the removal of every value of a key. *)
Definition add_step (key : string) (o : options) (val : string)
    (w : GitSim.world) : GitSim.world :=
  GitSim.with_write_file (global o)
    (GitSim.insert_entry (key, val) (GitSim.write_file (global o) w))
    (GitSim.logged (add_command key o val) w).

Definition unset_all_step (key : string) (o : options)
    (w : GitSim.world) : GitSim.world :=
  GitSim.with_write_file (global o)
    (GitSim.remove_key key (GitSim.write_file (global o) w))
    (GitSim.logged (unset_all_command key o) w).

(** The model after the successful writes of a list of values. *)
Definition add_steps (key : string) (o : options) (vals : list string)
    (w : GitSim.world) : GitSim.world :=
  fold_left (fun w val => add_step key o val w) vals w.

(** ** The other operations of [git.js] *)

(** [x || "HEAD"]: [None] stands for [undefined]; the empty string is
    falsy too. *)
Definition or_HEAD (x : option string) : string :=
  match x with
  | None => "HEAD"
  | Some s => if String.eqb s "" then "HEAD" else s
  end.

(** The class [a-z0-9]. *)
Definition lower_alnum (c : char) : bool :=
  (N.leb 97 c && N.leb c 122) || (N.leb 48 c && N.leb c 57).

(** [s] without the prefix [p], when it starts with it. *)
Fixpoint strip_prefix (p s : string) : option string :=
  match p with
  | EmptyString => Some s
  | String a p' =>
      match s with
      | String b s' => if Char.eqb a b then strip_prefix p' s' else None
      | EmptyString => None
      end
  end.

(** The longest run of characters of a class at the head of a string,
    and what follows it. *)
Fixpoint span (f : char -> bool) (s : string) : string * string :=
  match s with
  | EmptyString => (EmptyString, EmptyString)
  | String c r =>
      if f c then let (run, rest) := span f r in (String c run, rest)
      else (EmptyString, s)
  end.

(** The pattern of [git.getChangeId] tried at one position where its
    [^] holds: the text [Change-Id:], a greedy run of white space, an
    [I], a greedy non-empty run of [a-z0-9], and the [$] of the
    multi-line mode, the end of the input or a line terminator.  No
    shorter run can succeed where the greedy one fails: after a
    shorter run of white space comes white space and not [I], and
    after a shorter run of [a-z0-9] comes one of its characters and
    not the end of a line. *)
Definition change_id_here (s : string) : option string :=
  match strip_prefix "Change-Id:" s with
  | None => None
  | Some r =>
      match snd (span is_space r) with
      | String c r' =>
          if Char.eqb c "I"
          then let (run, rest) := span lower_alnum r' in
               match run, rest with
               | EmptyString, _ => None
               | _, EmptyString => Some (String c run)
               | _, String d _ =>
                   if line_terminator d then Some (String c run) else None
               end
          else None
      | EmptyString => None
      end
  end.

(** [message.match] of that pattern with the flag [m]: the positions
    are tried from the left, and [^] holds at the start of the input
    and after a line terminator.  [None] stands for [null], otherwise
    the group 1 is returned. *)
Fixpoint change_id_from (line_start : bool) (message : string) : option string :=
  match (if line_start then change_id_here message else None) with
  | Some id => Some id
  | None =>
      match message with
      | EmptyString => None
      | String c r => change_id_from (line_terminator c) r
      end
  end.

Definition match_change_id (message : string) : option string :=
  change_id_from true message.

(** The longest run of [.] at the head of a string. *)
Definition dots (s : string) : string := fst (span dot_matches s).

(** The pattern of [git.branch.parsedRemote] tried at one position: a
    lazy run of [.], a slash, a greedy run of [.]. *)
Fixpoint remote_here (s : string) : option (string * string) :=
  match s with
  | EmptyString => None
  | String c r =>
      if Char.eqb c "/" then Some (EmptyString, dots r)
      else if dot_matches c
      then match remote_here r with
           | Some (remote, branch) => Some (String c remote, branch)
           | None => None
           end
      else None
  end.

(** [name.match] of that pattern: the positions are tried from the
    left. *)
Fixpoint remote_match (name : string) : option (string * string) :=
  match remote_here name with
  | Some m => Some m
  | None =>
      match name with
      | EmptyString => None
      | String _ r => remote_match r
      end
  end.

(** [git.branch.parsedRemote]: the fields [remote] and [branch]; a name
    that the pattern does not match makes [match[1]] throw. *)
Definition branch_parsedRemote (name : string) : outcome (string * string) :=
  match remote_match name with
  | Some (remote, branch) => Ok (remote, branch)
  | None => Throw TypeError
  end.

Section Repository.

Variable World : Type.
Variable spawn_sync : list string -> World -> SpawnResult * World.

(** [git.inRepo]. *)
Definition inRepo : World -> bool * World :=
  execSuccess spawn_sync [Str "rev-parse"; Str "--git-dir"].

(** [git.checkout]. *)
Definition checkout (ref : string) : M World string :=
  exec spawn_sync [Str "checkout"; Str ref].

(** [git.dir]. *)
Definition dir : M World string :=
  exec spawn_sync [Str "rev-parse"; Str "--git-dir"].

(** [git.isIndexClean]. *)
Definition isIndexClean : World -> bool * World :=
  execSuccess spawn_sync
    [Str "diff-index"; Str "--no-ext-diff"; Str "--quiet"; Str "--exit-code";
     Str "HEAD"].

(** [git.hashFor]. *)
Definition hashFor (name : string) : M World string :=
  exec spawn_sync [Str "rev-list"; Str "--max-count=1"; Str name].

(** [git.revList]. *)
Definition revList (target excludeTarget : string) : M World (list string) :=
  bind (exec spawn_sync
          [Str "rev-list"; Str target; Str ("^" ++ excludeTarget)%js])
       (fun revList =>
          if String.eqb revList "" then ret [] else ret (split LF revList)).

(** [git.commitInfo]. *)
Definition commitInfo (commit format : string) : M World string :=
  exec spawn_sync
    [Str "show"; Str "--no-patch"; Str ("--format=" ++ format)%js;
     Str commit].

(** [git.describeHash]. *)
Definition describeHash (hash : string) : M World string :=
  commitInfo hash "%h %s".

(** [git.getChangeId]: [None] stands for [null]. *)
Definition getChangeId (commit : string) : M World (option string) :=
  bind (commitInfo commit "%b")
       (fun message => ret (match_change_id message)).

(** [git.config.removeSection]. *)
Definition config_removeSection (section : string) (o : options) : M World unit :=
  let flags := scope_flags o in
  bind (exec spawn_sync
          [Str "config"; Str "--remove-section"; Group (map Str flags);
           Str section])
       (fun _ => ret tt).

(** [git.config.renameSection]. *)
Definition config_renameSection (section name : string) (o : options)
  : M World unit :=
  let flags := scope_flags o in
  bind (exec spawn_sync
          [Str "config"; Str "--rename-section"; Group (map Str flags);
           Str section; Str name])
       (fun _ => ret tt).

(** [git.branch.name]. *)
Definition branch_name (ref : option string) : M World string :=
  let ref := or_HEAD ref in
  exec spawn_sync [Str "symbolic-ref"; Str "--quiet"; Str "--short"; Str ref].

(** [git.branch.exists]. *)
Definition branch_exists (name : string) : World -> bool * World :=
  execSuccess spawn_sync
    [Str "show-ref"; Str "--verify"; Str "--quiet";
     Str ("refs/heads/" ++ name)%js].

(** [git.branch.remove]. *)
Definition branch_remove (name : string) : M World unit :=
  bind (exec spawn_sync [Str "branch"; Str "-D"; Str name])
       (fun _ => ret tt).

(** [git.branch.create]. *)
Definition branch_create (name : string) (start_point : option string)
    (force : bool) : M World string :=
  let start_point := or_HEAD start_point in
  let flags := if force then ["--force"] else [] in
  exec spawn_sync
    [Str "branch"; Group (map Str flags); Str name; Str start_point].

(** [git.branch.hasUpstream]. *)
Definition branch_hasUpstream (name : option string) : World -> bool * World :=
  let name := or_HEAD name in
  execSuccess spawn_sync
    [Str "rev-parse"; Str "--verify"; Str (name ++ "@{u}")%js].

(** [git.branch.setUpstream]. *)
Definition branch_setUpstream (name : option string) (upstream : string)
  : M World string :=
  let name := or_HEAD name in
  exec spawn_sync
    [Str "branch"; Str "--set-upstream-to"; Str upstream; Str name].

(** [git.branch.upstream]. *)
Definition branch_upstream (name : option string) : M World string :=
  let name := or_HEAD name in
  exec spawn_sync
    [Str "rev-parse"; Str "--symbolic-full-name"; Str "--abbrev-ref";
     Str (name ++ "@{u}")%js].

(** [git.branch.isRemote]. *)
Definition branch_isRemote (name : string) : World -> bool * World :=
  execSuccess spawn_sync
    [Str "rev-parse"; Str "--verify"; Str ("refs/remotes/" ++ name)%js].

(** [git.branch.list]. *)
Definition branch_list : M World (list string) :=
  bind (exec spawn_sync
          [Str "for-each-ref"; Str "--format=%(refname:short)";
           Str "refs/heads/"])
       (fun out => ret (split LF out)).

End Repository.

Arguments inRepo {World} spawn_sync w.
Arguments checkout {World} spawn_sync ref w.
Arguments dir {World} spawn_sync w.
Arguments isIndexClean {World} spawn_sync w.
Arguments hashFor {World} spawn_sync name w.
Arguments revList {World} spawn_sync target excludeTarget w.
Arguments commitInfo {World} spawn_sync commit format w.
Arguments describeHash {World} spawn_sync hash w.
Arguments getChangeId {World} spawn_sync commit w.
Arguments config_removeSection {World} spawn_sync section o w.
Arguments config_renameSection {World} spawn_sync section name o w.
Arguments branch_name {World} spawn_sync ref w.
Arguments branch_exists {World} spawn_sync name w.
Arguments branch_remove {World} spawn_sync name w.
Arguments branch_create {World} spawn_sync name start_point force w.
Arguments branch_hasUpstream {World} spawn_sync name w.
Arguments branch_setUpstream {World} spawn_sync name upstream w.
Arguments branch_upstream {World} spawn_sync name w.
Arguments branch_isRemote {World} spawn_sync name w.
Arguments branch_list {World} spawn_sync w.

(** ** Vocabulary of the further statements *)

(** Does the string end in white space? *)
Fixpoint ends_in_space (s : string) : bool :=
  match s with
  | EmptyString => false
  | String c r =>
      match r with
      | EmptyString => is_space c
      | String _ _ => ends_in_space r
      end
  end.

(** The separator of lines, as a string. *)
Definition newline : string := String LF EmptyString.

(** Lines, each followed by a line feed. *)
Definition unlines (lines : list string) : string :=
  fold_right (fun l out => l ++ String LF out)%js EmptyString lines.

(** An executable that exits with status 0 and the same output
    whatever it is asked. *)
Definition answering (out : string) (args : list string) (w : unit)
  : SpawnResult * unit :=
  (mkSpawnResult 0 out "", w).

(** A change id as the pattern of [git.getChangeId] wants it: an [I]
    and a non-empty run of [a-z0-9]. *)
Definition change_id (id : string) : bool :=
  match id with
  | String c run =>
      Char.eqb c "I" && negb (String.eqb run "")
      && forallb lower_alnum (chars run)
  | EmptyString => false
  end.

(** A line of a commit message that is not a [Change-Id:] line. *)
Definition plain_line (line : string) : bool :=
  negb (existsb line_terminator (chars line))
  && match strip_prefix "Change-Id:" line with
     | Some _ => false
     | None => true
     end.

(** What may follow the change id on its line: nothing, or a line
    terminator and anything. *)
Definition ends_line (rest : string) : bool :=
  match rest with
  | EmptyString => true
  | String c _ => line_terminator c
  end.

(** Argument lists that one level of flattening flattens completely:
    a single array whose elements nest at most one level, or strings
    and arrays of strings that do not start with an array. *)
Definition shallow (arguments : list arg) : Prop :=
  match arguments with
  | [Group l] => Forall (fun a => depth a <= 1) l
  | Group _ :: _ => False
  | _ => Forall (fun a => depth a <= 1) arguments
  end.

(** Values that a read of every value gives back as they are: no line
    feed inside a value, and a last value that is not empty and does
    not end in white space. *)
Fixpoint survives_read (vs : list string) : bool :=
  match vs with
  | [] => true
  | v :: rest =>
      negb (contains LF v)
      && match rest with
         | [] => negb (String.eqb v "") && negb (ends_in_space v)
         | _ :: _ => survives_read rest
         end
  end.

(** The values of the global file that a read without a scope sees
    before those of the local file. *)
Definition seen_before (key : string) (o : options) (w : GitSim.world)
  : list string :=
  if global o || local o then []
  else GitSim.values_of key (GitSim.global_file w).

(** What the child process of [git.show] is started with: the elements
    of the argument list, each as a string. *)
Definition show_spawned (arguments : list arg) : list string :=
  map arg_to_string (show_args arguments).

Section Writes.

Context {World : Type} (spawn_sync : list string -> World -> SpawnResult * World).

(** Command lines run one after the other up to the first one that
    does not exit with status 0: the result of that one, if any, and
    the state reached. *)
Fixpoint run_all (commands : list (list string)) (w : World)
  : option SpawnResult * World :=
  match commands with
  | [] => (None, w)
  | command :: rest =>
      let (result, w') := spawn_sync command w in
      if (status result =? 0)%Z then run_all rest w' else (Some result, w')
  end.

(** What [config.set] makes of its writes: the values, or the
    [GitError] of the write that failed. *)
Definition writes_outcome (vals : list string)
    (r : option SpawnResult * World) : outcome (list string) * World :=
  match fst r with
  | None => (Ok vals, snd r)
  | Some result =>
      (Throw (GitErr (mkGitError (status result) (Some (Str "config"))
                        (trimRight (stdout result))
                        (trimRight (stderr result)))), snd r)
  end.

(** The state in which the writes of [config.set] start: after the
    removal of the replace mode, after the read of the unique mode,
    or as it was. *)
Definition before_writes (key : string) (o : options) (w : World) : World :=
  if negb (add o) then snd (spawn_sync (unset_all_command key o) w)
  else if unique o then snd (spawn_sync (get_command key (with_all o)) w)
  else w.

End Writes.

(** A key that git takes as the name of a variable and stores as it
    is written: a section that starts with a letter or a digit, and
    the section and the variable name in lower case. *)
Definition config_key (key : string) : bool :=
  GitSim.store_key key
  && match key with
     | String c _ => GitSim.is_alpha c || is_digit c
     | EmptyString => false
     end.

(** A value that git stores and gives back as it is: text that reaches
    the executable, without the control characters that the parser of
    the file takes for white space. *)
Definition storable (v : string) : bool :=
  GitSim.passable v
  && negb (existsb (fun c => existsb (N.eqb c) [11; 12; 13]%N) (chars v)).

(** * Properties *)

(** ** Characters and strings *)

Lemma char_eqb_refl (c : char) : Char.eqb c c = true.
Proof. apply N.eqb_refl. Qed.

Lemma char_eqb_sym (a b : char) : Char.eqb a b = Char.eqb b a.
Proof. apply N.eqb_sym. Qed.

Lemma char_eqb_eq (a b : char) : Char.eqb a b = true <-> a = b.
Proof. apply N.eqb_eq. Qed.

Lemma char_eqb_spec (a b : char) : reflect (a = b) (Char.eqb a b).
Proof. apply N.eqb_spec. Qed.

Lemma string_eqb_refl (s : string) : String.eqb s s = true.
Proof.
  induction s as [|c s IH]; [reflexivity|].
  simpl. now rewrite char_eqb_refl, IH.
Qed.

Lemma string_eqb_eq (a b : string) : String.eqb a b = true <-> a = b.
Proof.
  revert b. induction a as [|x a IH]; intros [|y b]; simpl;
    try (split; [discriminate | discriminate]); [tauto|].
  rewrite andb_true_iff, char_eqb_eq, IH. split.
  - intros [-> ->]. reflexivity.
  - intros H. injection H as -> ->. tauto.
Qed.

Lemma string_eqb_spec (a b : string) : reflect (a = b) (String.eqb a b).
Proof.
  destruct (String.eqb a b) eqn:E; constructor.
  - now apply string_eqb_eq.
  - intros H. apply string_eqb_eq in H. congruence.
Qed.

Lemma string_eqb_sym (a b : string) : String.eqb a b = String.eqb b a.
Proof.
  destruct (string_eqb_spec a b) as [->|Hne].
  - now rewrite string_eqb_refl.
  - destruct (string_eqb_spec b a) as [->|_]; [contradiction | reflexivity].
Qed.

(** ** The monad of the wrapper *)

Section MonadFacts.

Context {World : Type}.

Lemma bind_ok {A B} (m : M World A) (f : A -> M World B) (w w' : World) (a : A) :
  m w = (Ok a, w') -> bind m f w = f a w'.
Proof. intros E. unfold bind. now rewrite E. Qed.

Lemma bind_throw {A B} (m : M World A) (f : A -> M World B) (w w' : World) (e : exn) :
  m w = (Throw e, w') -> bind m f w = (Throw e, w').
Proof. intros E. unfold bind. now rewrite E. Qed.

Lemma bind_ret {A B} (a : A) (f : A -> M World B) (w : World) :
  bind (ret a) f w = f a w.
Proof. reflexivity. Qed.

Lemma forEach_cons {A} (x : A) (l : list A) (f : A -> M World unit) (w : World) :
  forEach (x :: l) f w = bind (f x) (fun _ => forEach l f) w.
Proof. reflexivity. Qed.

Lemma try_catch_ok {A} (m h : M World A) (w w' : World) (a : A) :
  m w = (Ok a, w') -> try_catch m h w = (Ok a, w').
Proof. intros E. unfold try_catch. now rewrite E. Qed.

Lemma try_catch_throw {A} (m h : M World A) (w w' : World) (e : exn) :
  m w = (Throw e, w') -> try_catch m h w = h w'.
Proof. intros E. unfold try_catch. now rewrite E. Qed.

End MonadFacts.

(** ** Strings *)

Lemma contains_cons (c a : char) (s : string) :
  contains c (String a s) = Char.eqb c a || contains c s.
Proof. reflexivity. Qed.

(** ** Set operations of lodash *)

Lemma mem_In (x : string) (l : list string) : mem x l = true <-> In x l.
Proof.
  unfold mem. rewrite existsb_exists. split.
  - intros (y & Hin & Heq). apply string_eqb_eq in Heq. now subst.
  - intros Hin. exists x. split; [exact Hin | apply string_eqb_refl].
Qed.

Lemma difference_In (x : string) (array values : list string) :
  In x (difference array values) <-> In x array /\ ~ In x values.
Proof.
  unfold difference. rewrite filter_In, negb_true_iff.
  rewrite <- (mem_In x values). destruct (mem x values); intuition congruence.
Qed.

Lemma difference_nil (array values : list string) :
  incl array values -> difference array values = [].
Proof.
  unfold difference. induction array as [|x array IH]; intros H; [reflexivity|].
  simpl. assert (Hx : mem x values = true) by (apply mem_In, H; now left).
  rewrite Hx. simpl. apply IH. intros a Ha. apply H. now right.
Qed.

(** The loop of [_.intersection], from a result without repetition
    that is within [other]: the bound on the length of the result
    never cuts an element off. *)
Lemma intersection_loop_spec (n : nat) (other : list string) :
  forall array result,
    NoDup result -> incl result other ->
    List.length result + List.length array <= n ->
    NoDup (intersection_loop (Nat.min n (List.length other)) array other result)
    /\ forall x,
         In x (intersection_loop (Nat.min n (List.length other))
                 array other result)
         <-> In x result \/ (In x array /\ In x other).
Proof.
  induction array as [|y rest IH]; intros result Hnd Hincl Hlen.
  - simpl. split; [exact Hnd | intros x; simpl; tauto].
  - cbn [intersection_loop]. simpl in Hlen.
    destruct (Nat.ltb_spec (List.length result)
                (Nat.min n (List.length other))) as [Hlt|Hge].
    + destruct (mem y result) eqn:Hres; cbn [negb andb].
      * destruct (IH result Hnd Hincl ltac:(lia)) as [Hn Hi].
        split; [exact Hn|]. intros x. rewrite Hi. simpl.
        apply mem_In in Hres. intuition (subst; auto).
      * destruct (mem y other) eqn:Hoth.
        -- apply mem_In in Hoth.
           assert (Hny : ~ In y result)
             by (intros Hin; apply mem_In in Hin; congruence).
           destruct (IH (result ++ [y])) as [Hn Hi].
           { apply NoDup_app; [exact Hnd | repeat constructor; intros [] |].
             intros a Ha [<-|[]]. contradiction. }
           { intros a Ha. apply in_app_or in Ha.
             destruct Ha as [Ha|[<-|[]]]; auto. }
           { rewrite length_app. simpl. lia. }
           split; [exact Hn|]. intros x. rewrite Hi, in_app_iff. simpl.
           intuition (subst; auto).
        -- destruct (IH result Hnd Hincl ltac:(lia)) as [Hn Hi].
           split; [exact Hn|]. intros x. rewrite Hi. simpl.
           assert (Hno : ~ In y other)
             by (intros Hin; apply mem_In in Hin; congruence).
           intuition (subst; auto; contradiction).
    + split; [exact Hnd|]. intros x. split; [auto|].
      intros [Hin|[_ Hin]]; [exact Hin|].
      assert (Hle : List.length other <= List.length result) by lia.
      exact (NoDup_length_incl Hnd Hle Hincl x Hin).
Qed.

(** [_.intersection] holds the common elements, each once. *)
Lemma intersection_spec (array other : list string) :
  NoDup (intersection array other)
  /\ forall x, In x (intersection array other) <-> In x array /\ In x other.
Proof.
  unfold intersection.
  destruct (intersection_loop_spec (List.length array) other array [])
    as [Hn Hi]; [constructor | intros a [] | simpl; lia |].
  split; [exact Hn|]. intros x. rewrite Hi. simpl. tauto.
Qed.

(** ** Flattening of argument groups *)

Lemma flattenDeep_app (l1 l2 : list arg) :
  flattenDeep (l1 ++ l2) = flattenDeep l1 ++ flattenDeep l2.
Proof. unfold flattenDeep. apply flat_map_app. Qed.

Lemma flattenDeep_group (l : list arg) :
  flattenDeep [Group l] = flattenDeep l.
Proof. unfold flattenDeep. simpl. apply app_nil_r. Qed.

Lemma flattenDeep_strings (l : list string) :
  flattenDeep (map Str l) = l.
Proof.
  unfold flattenDeep. induction l as [|s l IH]; simpl; [reflexivity|].
  now rewrite IH.
Qed.

(** One level of flattening keeps the leaves and their order. *)
Lemma flattenDeep_flatten (l : list arg) :
  flattenDeep (flatten l) = flattenDeep l.
Proof.
  unfold flatten. induction l as [|a l IH]; simpl; [reflexivity|].
  rewrite flattenDeep_app, IH. destruct a as [s|g]; reflexivity.
Qed.

Section RunnerFacts.

Context {World : Type} (spawn_sync : list string -> World -> SpawnResult * World).

(** The synchronous operations hand the executable the deep flattening
    of their arguments, whatever the nesting. *)
Lemma run_flattens (arguments : list arg) (w : World) :
  run spawn_sync arguments w = spawn_sync (flattenDeep arguments) w.
Proof. reflexivity. Qed.

Lemma exec_unfold (arguments : list arg) (w : World) :
  exec spawn_sync arguments w =
  let (result, w') := spawn_sync (flattenDeep arguments) w in
  if (status result =? 0)%Z
  then (Ok (trimRight (stdout result)), w')
  else (Throw (GitErr (mkGitError (status result) (hd_error arguments)
                         (trimRight (stdout result))
                         (trimRight (stderr result)))), w').
Proof.
  unfold exec, run. rewrite flattenDeep_group.
  destruct (spawn_sync (flattenDeep arguments) w) as [result w'].
  destruct (status result =? 0)%Z; reflexivity.
Qed.

Lemma execSuccess_unfold (arguments : list arg) (w : World) :
  execSuccess spawn_sync arguments w =
  let (result, w') := spawn_sync (flattenDeep arguments) w in
  ((status result =? 0)%Z, w').
Proof. unfold execSuccess, run. now rewrite flattenDeep_group. Qed.

(** A zero exit status: the trimmed standard output is returned. *)
Lemma exec_zero (arguments : list arg) (w w' : World) (result : SpawnResult) :
  spawn_sync (flattenDeep arguments) w = (result, w') ->
  status result = 0%Z ->
  exec spawn_sync arguments w = (Ok (trimRight (stdout result)), w').
Proof.
  intros Hs Hz. rewrite exec_unfold, Hs, Hz. reflexivity.
Qed.

(** A non-zero exit status: a [GitError] whose [command] is the first
    actual argument of the call. *)
Lemma exec_nonzero (arguments : list arg) (w w' : World) (result : SpawnResult) :
  spawn_sync (flattenDeep arguments) w = (result, w') ->
  status result <> 0%Z ->
  exec spawn_sync arguments w =
  (Throw (GitErr (mkGitError (status result) (hd_error arguments)
                    (trimRight (stdout result))
                    (trimRight (stderr result)))), w').
Proof.
  intros Hs Hz. rewrite exec_unfold, Hs.
  destruct (Z.eqb_spec (status result) 0); [contradiction|reflexivity].
Qed.

End RunnerFacts.

(** C8.  [exec("config", ["--get-all"], "user.name")] against an empty
    store: the executable receives the three flattened arguments and
    exits with status 1; the error that [exec] throws carries the exit
    status and the trimmed streams, but its [command] is the first
    argument, ["config"], alone and not the command that was invoked. *)
Theorem exec_error_command_is_first_argument :
  exec GitSim.git [Str "config"; Group [Str "--get-all"]; Str "user.name"]
       GitSim.empty
  = (Throw (GitErr (mkGitError 1 (Some (Str "config")) "" "")),
     GitSim.mkWorld [] [] [["config"; "--get-all"; "user.name"]]).
Proof. reflexivity. Qed.

(** C9.  [show("log", ["--format=%h", ["-n", "1"]])]: the streaming
    operation flattens one level only, so the inner group stays in the
    argument list and reaches the child process as the one string
    ["-n,1"], where the deep flattening of [run] yields the four
    strings.  And [show(["log"], "--oneline")]: after a first argument
    that is an array, the further arguments are dropped. *)
Theorem show_flattens_one_level_only :
  show_args [Str "log"; Group [Str "--format=%h"; Group [Str "-n"; Str "1"]]]
  = [Str "log"; Str "--format=%h"; Group [Str "-n"; Str "1"]]
  /\ show_spawned
       [Str "log"; Group [Str "--format=%h"; Group [Str "-n"; Str "1"]]]
     = ["log"; "--format=%h"; "-n,1"]
  /\ flattenDeep
       [Str "log"; Group [Str "--format=%h"; Group [Str "-n"; Str "1"]]]
     = ["log"; "--format=%h"; "-n"; "1"]
  /\ show_spawned [Group [Str "log"]; Str "--oneline"] = ["log"]
  /\ flattenDeep [Group [Str "log"]; Str "--oneline"] = ["log"; "--oneline"].
Proof. repeat split. Qed.

(** Up to one level of grouping, one level of flattening is complete. *)
Lemma flatten_shallow (l : list arg) :
  Forall (fun a => depth a <= 1) l ->
  flatten l = map Str (flattenDeep l).
Proof.
  unfold flatten, flattenDeep.
  induction l as [|a l IH]; intros H; [reflexivity|].
  inversion H as [|a' l' Ha Hl]; subst. simpl.
  rewrite map_app, (IH Hl). f_equal.
  destruct a as [s|g]; [reflexivity|].
  simpl in Ha. apply le_S_n in Ha. clear -Ha.
  induction g as [|x g IHg]; [reflexivity|].
  simpl in Ha. simpl.
  assert (Hx : depth x = 0) by lia.
  assert (Hg : fold_right (fun y m => Nat.max (depth y) m) 0 g <= 0) by lia.
  destruct x as [s|g']; [|discriminate].
  simpl. f_equal. now apply IHg.
Qed.

(** With a first argument that is an array, [show] drops the others. *)
Lemma show_args_array_first (l rest : list arg) :
  show_args (Group l :: rest) = flatten l.
Proof. reflexivity. Qed.

(** The error of the streaming operation names the whole command. *)
Lemma show_close_error_names_arguments :
  show_close [Str "log"; Str "--oneline"] ("fatal: bad revision" ++ String LF "") 128
  = Throw (GitErr (mkGitError 128 (Some (Str "'log' '--oneline'")) ""
                     "fatal: bad revision")).
Proof. reflexivity. Qed.

(** ** The combined entry point *)

(** C10, counterexample.  [config("k.v", "new", {add: true})] on a
    store that holds ["old"] for the key: the second argument is a
    string, and the write appends; both values are there afterwards,
    and no replace-mode [set] does what the call did. *)
Lemma config_string_with_add_appends :
  let w0 := GitSim.mkWorld [] [("k.v", "old")] [] in
  let call := config GitSim.git "k.v" [JStr "new"; JObj (with_add no_options)] in
  GitSim.values_of "k.v" (GitSim.local_file (snd (call w0))) = ["old"; "new"]
  /\ forall o, add o = false ->
       call w0 <>
       bind (config_set GitSim.git "k.v" (JStr "new") o)
            (fun l => ret (Written l)) w0.
Proof.
  split; [reflexivity|].
  intros [g l a r ad u] Hadd. simpl in Hadd. subst ad.
  destruct g, l, a, r, u; vm_compute; discriminate.
Qed.

(** C10, amended.  [config] dispatches on its second argument: with
    the key alone, and with exactly two arguments of which the second
    is neither a string nor an array (it is then the options), it is
    [config.get]; with a second argument that is a string or an array
    it is [config.set] of that value: under no options, the replace
    mode, when there are two arguments, and under the third argument
    as options when there are more. *)
Theorem config_dispatch {World : Type}
    (spawn_sync : list string -> World -> SpawnResult * World)
    (key : string) (w : World) :
  config spawn_sync key [] w
  = bind (config_get spawn_sync key no_options) (fun r => ret (Read r)) w
  /\ config spawn_sync key [JUndefined] w
     = bind (config_get spawn_sync key no_options) (fun r => ret (Read r)) w
  /\ (forall o,
        config spawn_sync key [JObj o] w
        = bind (config_get spawn_sync key o) (fun r => ret (Read r)) w)
  /\ (forall s,
        config spawn_sync key [JStr s] w
        = bind (config_set spawn_sync key (JStr s) no_options)
               (fun l => ret (Written l)) w)
  /\ (forall l,
        config spawn_sync key [JArr l] w
        = bind (config_set spawn_sync key (JArr l) no_options)
               (fun l => ret (Written l)) w)
  /\ (forall s third more,
        config spawn_sync key (JStr s :: third :: more) w
        = bind (config_set spawn_sync key (JStr s) (options_of third))
               (fun l => ret (Written l)) w)
  /\ (forall l third more,
        config spawn_sync key (JArr l :: third :: more) w
        = bind (config_set spawn_sync key (JArr l) (options_of third))
               (fun l => ret (Written l)) w)
  /\ add no_options = false.
Proof.
  repeat apply conj; try reflexivity; intros; unfold config; simpl;
    rewrite ?andb_false_r; reflexivity.
Qed.

(** ** Reads that miss *)

Section GetFacts.

Context {World : Type} (spawn_sync : list string -> World -> SpawnResult * World).

Lemma get_command_flatten (key : string) (o : options) :
  flattenDeep [Str "config"; Group (map Str (get_flags o)); Str key]
  = get_command key o.
Proof.
  unfold get_command.
  change [Str "config"; Group (map Str (get_flags o)); Str key]
    with ([Str "config"] ++ [Group (map Str (get_flags o))] ++ [Str key]).
  rewrite !flattenDeep_app, flattenDeep_group, flattenDeep_strings.
  reflexivity.
Qed.

(** A read of every value never throws and yields an array. *)
Lemma config_get_all_is_list (key : string) (o : options) (w : World) :
  all o = true ->
  exists l w', config_get spawn_sync key o w = (Ok (GList l), w').
Proof.
  intros Hall. unfold config_get. rewrite Hall. simpl.
  destruct (exec spawn_sync _ w) as [[out|e] w']; eauto.
Qed.

(** The outcome of a read whose lookup exits with a non-zero status. *)
Lemma config_get_miss (key : string) (o : options) (w : World) :
  status (fst (spawn_sync (get_command key o) w)) <> 0%Z ->
  config_get spawn_sync key o w
  = (Ok (if all o || regex o then GList [] else GNull),
     snd (spawn_sync (get_command key o) w)).
Proof.
  intros Hst. unfold config_get.
  destruct (spawn_sync (get_command key o) w) as [result w'] eqn:Hs.
  rewrite (exec_nonzero spawn_sync _ w w' result);
    [| now rewrite get_command_flatten | exact Hst].
  destruct (all o || regex o); reflexivity.
Qed.

(** Outside the regex mode a read never throws. *)
Lemma config_get_total (key : string) (o : options) (w : World) :
  regex o = false \/ all o = true ->
  exists r w', config_get spawn_sync key o w = (Ok r, w').
Proof.
  intros H. unfold config_get.
  destruct (exec spawn_sync _ w) as [[out|e] w'].
  - destruct (all o); [eauto|].
    destruct H as [H|H]; [rewrite H; eauto | discriminate].
  - destruct (all o || regex o); eauto.
Qed.

(** C2, amended.  When the lookup exits with a non-zero status, that
    is when [exec] fails with its error, [get] does not throw: it
    returns [null] in the single-value mode and the empty array when
    [all] or [regex] is set. *)
Theorem config_get_soft_miss (key : string) (o : options) (w : World) :
  status (fst (spawn_sync (get_command key o) w)) <> 0%Z ->
  config_get spawn_sync key o w
  = (Ok (if all o || regex o then GList [] else GNull),
     snd (spawn_sync (get_command key o) w)).
Proof.
  intros Hst. unfold config_get.
  destruct (spawn_sync (get_command key o) w) as [result w'] eqn:Hs.
  rewrite (exec_nonzero spawn_sync _ w w' result).
  - destruct (all o || regex o); reflexivity.
  - now rewrite get_command_flatten.
  - exact Hst.
Qed.

End GetFacts.

Lemma config_get_soft_miss_witness :
  status (fst (GitSim.git (get_command "user.name" (with_regex no_options))
                 GitSim.empty)) <> 0%Z
  /\ config_get GitSim.git "user.name" (with_regex no_options) GitSim.empty
     = (Ok (GList []),
        snd (GitSim.git (get_command "user.name" (with_regex no_options))
               GitSim.empty)).
Proof.
  split.
  - vm_compute. discriminate.
  - apply (config_get_soft_miss GitSim.git "user.name"
             (with_regex no_options) GitSim.empty).
    vm_compute. discriminate.
Defined.

(** C2, counterexample.  A regex read of a key that is not in the
    store: the lookup fails and [get] returns the empty array that it
    returns for [all], not an empty mapping. *)
Lemma config_get_regex_miss_is_array :
  fst (config_get GitSim.git "user.name" (with_regex no_options) GitSim.empty)
  = Ok (GList [])
  /\ fst (config_get GitSim.git "user.name" (with_regex no_options) GitSim.empty)
     <> Ok (GMap []).
Proof. split; [reflexivity | vm_compute; discriminate]. Qed.

(** ** What a write runs and returns *)

Lemma add_command_flatten (key : string) (o : options) (val : string) :
  flattenDeep [Str "config"; Group (map Str (scope_flags o ++ ["--add"]));
               Str key; Str val]
  = add_command key o val.
Proof.
  unfold add_command.
  change [Str "config"; Group (map Str (scope_flags o ++ ["--add"]));
          Str key; Str val]
    with ([Str "config"] ++ [Group (map Str (scope_flags o ++ ["--add"]))]
          ++ [Str key; Str val]).
  rewrite !flattenDeep_app, flattenDeep_group, flattenDeep_strings.
  cbn [flattenDeep flat_map flattenDeep1 app]. now rewrite <- app_assoc.
Qed.

Lemma unset_all_command_flatten (key : string) (o : options) :
  flattenDeep [Str "config"; Str "--unset-all";
               Group (map Str (scope_flags o)); Str key]
  = unset_all_command key o.
Proof.
  unfold unset_all_command.
  change [Str "config"; Str "--unset-all";
          Group (map Str (scope_flags o)); Str key]
    with ([Str "config"; Str "--unset-all"]
          ++ [Group (map Str (scope_flags o))] ++ [Str key]).
  rewrite !flattenDeep_app, flattenDeep_group, flattenDeep_strings.
  reflexivity.
Qed.

Lemma unset_command_flatten (key : string) (o : options) (val : string) :
  flattenDeep [Str "config"; Str "--unset"; Group (map Str (scope_flags o));
               Str key; Str ("^" ++ val ++ "$")%js]
  = unset_command key o val.
Proof.
  unfold unset_command.
  change [Str "config"; Str "--unset"; Group (map Str (scope_flags o));
          Str key; Str ("^" ++ val ++ "$")%js]
    with ([Str "config"; Str "--unset"]
          ++ [Group (map Str (scope_flags o))]
          ++ [Str key; Str ("^" ++ val ++ "$")%js]).
  rewrite !flattenDeep_app, flattenDeep_group, flattenDeep_strings.
  reflexivity.
Qed.

Section SetFacts.

Context {World : Type} (spawn_sync : list string -> World -> SpawnResult * World).

(** [exec] throws nothing but a [GitError]. *)
Lemma exec_outcome (arguments : list arg) (w : World) :
  (exists out w', exec spawn_sync arguments w = (Ok out, w'))
  \/ (exists e w', exec spawn_sync arguments w = (Throw (GitErr e), w')).
Proof.
  rewrite exec_unfold.
  destruct (spawn_sync (flattenDeep arguments) w) as [result w'].
  destruct (status result =? 0)%Z; eauto.
Qed.

(** A loop of command executions completes or stops at a [GitError]. *)
Lemma forEach_exec_outcome (cmd : string -> list arg) (l : list string) (w : World) :
  (exists w', forEach l (fun val => bind (exec spawn_sync (cmd val))
                                         (fun _ => ret tt)) w = (Ok tt, w'))
  \/ (exists e w', forEach l (fun val => bind (exec spawn_sync (cmd val))
                                              (fun _ => ret tt)) w
                   = (Throw (GitErr e), w')).
Proof.
  revert w. induction l as [|x l IH]; intros w.
  - left. now exists w.
  - rewrite forEach_cons.
    destruct (exec_outcome (cmd x) w) as [(out & w' & E) | (e & w' & E)].
    + erewrite bind_ok; [apply IH|].
      erewrite bind_ok; [reflexivity | exact E].
    + right. exists e, w'.
      erewrite bind_throw; [reflexivity|].
      erewrite bind_throw; [reflexivity | exact E].
Qed.

(** The read of the unique mode: the current values, in the state
    that the lookup leaves. *)
Lemma config_get_all_current (key : string) (o : options) (w : World) :
  config_get spawn_sync key (with_all o) w
  = (Ok (GList (current_values spawn_sync key o w)),
     snd (spawn_sync (get_command key (with_all o)) w)).
Proof.
  unfold current_values, config_get. cbn [all with_all].
  rewrite exec_unfold, get_command_flatten.
  destruct (spawn_sync (get_command key (with_all o)) w) as [result w'].
  destruct (status result =? 0)%Z; reflexivity.
Qed.

(** The removal of the replace mode: whatever the exit status of the
    command, nothing is thrown, and the state is the one that the
    command leaves. *)
Lemma unset_swallowed (key : string) (o : options) (w : World) :
  try_catch (config_unset spawn_sync key o) (ret tt) w
  = (Ok tt, snd (spawn_sync (unset_all_command key o) w)).
Proof.
  unfold try_catch, config_unset, bind.
  rewrite exec_unfold, unset_all_command_flatten.
  destruct (spawn_sync (unset_all_command key o) w) as [result w'].
  destruct (status result =? 0)%Z; reflexivity.
Qed.

(** The removal alone throws the [GitError] of a command that fails. *)
Lemma config_unset_throws (key : string) (o : options) (w : World) :
  status (fst (spawn_sync (unset_all_command key o) w)) <> 0%Z ->
  exists e, fst (config_unset spawn_sync key o w) = Throw (GitErr e).
Proof.
  intros Hst. unfold config_unset, bind.
  rewrite exec_unfold, unset_all_command_flatten.
  destruct (spawn_sync (unset_all_command key o) w) as [result w'].
  destruct (Z.eqb_spec (status result) 0) as [Hz|_]; [contradiction|].
  eexists. reflexivity.
Qed.

(** The tail of [config.set]: one write per value, in order, up to the
    first one that fails; then the values, or the error of that
    write. *)
Lemma write_loop_runs (key : string) (o : options) (vals l : list string)
    (w : World) :
  bind (forEach vals
          (fun val =>
             bind (exec spawn_sync
                     [Str "config";
                      Group (map Str (scope_flags o ++ ["--add"]));
                      Str key; Str val])
                  (fun _ => ret tt)))
       (fun _ => ret l) w
  = writes_outcome l (run_all spawn_sync (map (add_command key o) vals) w).
Proof.
  revert w. induction vals as [|v vals IH]; intros w; [reflexivity|].
  specialize (IH (snd (spawn_sync (add_command key o v) w))).
  cbn [map run_all]. unfold bind in *. rewrite forEach_cons. unfold bind.
  rewrite exec_unfold, add_command_flatten.
  destruct (spawn_sync (add_command key o v) w) as [result w'].
  cbn [snd] in IH.
  destruct (status result =? 0)%Z; [exact IH | reflexivity].
Qed.

(** [config.set], whatever the executable: the values to write, the
    state in which the writes start, and the writes. *)
Lemma config_set_runs (key : string) (values : jsval) (o : options)
    (w : World) :
  config_set spawn_sync key values o w
  = writes_outcome (values_to_write spawn_sync key values o w)
      (run_all spawn_sync
         (map (add_command key o) (values_to_write spawn_sync key values o w))
         (before_writes spawn_sync key o w)).
Proof.
  unfold config_set, values_to_write, before_writes.
  destruct (add o); cbn [negb andb].
  - destruct (unique o).
    + erewrite bind_ok;
        [| erewrite bind_ok; [reflexivity | apply config_get_all_current]].
      cbn [array_like]. apply write_loop_runs.
    + rewrite bind_ret. apply write_loop_runs.
  - erewrite bind_ok;
      [| erewrite bind_ok; [reflexivity | apply unset_swallowed]].
    apply write_loop_runs.
Qed.

(** Writes that all succeed, against a store in which a successful
    write of one of the values appends it to the values [held] of the
    key: the values written come after those held before. *)
Lemma run_all_held (held : World -> list string) (key : string) (o : options)
    (allowed : list string) :
  (forall v w0,
     In v allowed ->
     status (fst (spawn_sync (add_command key o v) w0)) = 0%Z ->
     held (snd (spawn_sync (add_command key o v) w0)) = held w0 ++ [v]) ->
  forall vals w,
    incl vals allowed ->
    fst (run_all spawn_sync (map (add_command key o) vals) w) = None ->
    held (snd (run_all spawn_sync (map (add_command key o) vals) w))
    = held w ++ vals.
Proof.
  intros Hadd vals. induction vals as [|v vals IH]; intros w Hincl.
  - intros _. cbn [map run_all snd]. now rewrite app_nil_r.
  - cbn [map run_all].
    specialize (Hadd v w (Hincl v (or_introl eq_refl))).
    destruct (spawn_sync (add_command key o v) w) as [result w'].
    cbn [fst snd] in Hadd.
    destruct (Z.eqb_spec (status result) 0) as [Hz|_]; [|discriminate].
    intros Hnone.
    rewrite (IH w' (fun x Hx => Hincl x (or_intror Hx)) Hnone), (Hadd Hz),
      <- app_assoc.
    reflexivity.
Qed.

(** C3, amended.  [config.set] runs one write for each of the values
    to write, in order and up to the first write that fails, and
    returns those values when every write succeeds, the [GitError] of
    the failed write being thrown otherwise.  The values to write are
    the requested list in the replace mode and in the plain append
    mode, and, when [add] and [unique] are both set, the requested
    values that are not among the values its own read of the key
    returned. *)
Theorem config_set_returns_written_values
    (key : string) (values : jsval) (o : options) (w : World) :
  config_set spawn_sync key values o w
  = writes_outcome (values_to_write spawn_sync key values o w)
      (run_all spawn_sync
         (map (add_command key o) (values_to_write spawn_sync key values o w))
         (before_writes spawn_sync key o w))
  /\ values_to_write spawn_sync key values o w
     = (if add o && unique o
        then difference (castArray values) (current_values spawn_sync key o w)
        else castArray values)
  /\ current_values spawn_sync key o w
     = (if (status (fst (spawn_sync (get_command key (with_all o)) w))
            =? 0)%Z
        then output_lines (fst (spawn_sync (get_command key (with_all o)) w))
        else []).
Proof.
  split; [apply config_set_runs|]. split; [reflexivity|].
  unfold current_values, config_get, output_lines. cbn [all with_all].
  rewrite exec_unfold, get_command_flatten.
  destruct (spawn_sync (get_command key (with_all o)) w) as [result w'].
  cbn [fst]. destruct (status result =? 0)%Z; reflexivity.
Qed.

(** A unique append of values that the key is read to hold already
    runs no write: only the read reaches the executable. *)
Lemma config_set_unique_nothing_new
    (key : string) (values : jsval) (o : options) (w : World) :
  add o = true -> unique o = true ->
  incl (castArray values) (current_values spawn_sync key o w) ->
  config_set spawn_sync key values o w
  = (Ok [], snd (config_get spawn_sync key (with_all o) w)).
Proof.
  intros Hadd Huniq Hincl. unfold config_set, current_values in *.
  rewrite Hadd, Huniq. cbn [negb].
  destruct (config_get_all_is_list spawn_sync key (with_all o) w eq_refl)
    as (cur & w1 & Hget).
  rewrite Hget in *. simpl in Hincl. simpl snd.
  erewrite bind_ok; [| erewrite bind_ok; [reflexivity | exact Hget]].
  simpl array_like. rewrite (difference_nil _ _ Hincl). reflexivity.
Qed.

(** [unsetMatching] returns the intersection of the requested values
    with the values it read, or fails with the [GitError] of a
    removal. *)
Lemma config_unsetMatching_outcome
    (key : string) (values : jsval) (o : options) (w : World) :
  (exists w', config_unsetMatching spawn_sync key values o w
              = (Ok (intersection (castArray values)
                       (current_values spawn_sync key o w)), w'))
  \/ (exists e w', config_unsetMatching spawn_sync key values o w
                   = (Throw (GitErr e), w')).
Proof.
  unfold config_unsetMatching, current_values.
  destruct (config_get_all_is_list spawn_sync key (with_all o) w eq_refl)
    as (cur & w1 & Hget).
  rewrite Hget. simpl.
  erewrite bind_ok; [| exact Hget]. simpl array_like.
  destruct (forEach_exec_outcome
              (fun val => [Str "config"; Str "--unset";
                           Group (map Str (scope_flags o)); Str key;
                           Str ("^" ++ val ++ "$")%js])
              (intersection (castArray values) cur) w1)
    as [(w' & E) | (e & w' & E)].
  - left. exists w'. erewrite bind_ok; [reflexivity | exact E].
  - right. exists e, w'. erewrite bind_throw; [reflexivity | exact E].
Qed.

End SetFacts.

(** C3, counterexample.  The key holds ["a"]; a unique append of
    ["a"; "b"] returns ["b"], the values that changed the store, and
    not the two requested values. *)
Lemma config_set_unique_returns_filtered :
  fst (config_set GitSim.git "k.v" (JArr ["a"; "b"])
         (mkOptions false false false false true true)
         (GitSim.mkWorld [] [("k.v", "a")] []))
  = Ok ["b"]
  /\ Ok ["b"] <> Ok (castArray (JArr ["a"; "b"])).
Proof. split; [reflexivity | vm_compute; discriminate]. Qed.

(** ** The regex mode of a read *)

Lemma match_line_split (line : string) :
  forallb dot_matches (chars line) = true ->
  match_line line = Some (split_first_space line).
Proof.
  induction line as [|c r IH]; simpl; intros H; [reflexivity|].
  apply andb_prop in H. destruct H as [Hc Hr].
  destruct (Char.eqb c SP); simpl.
  - now rewrite Hr.
  - rewrite Hc, (IH Hr). now destruct (split_first_space r).
Qed.

(** A line with a line terminator in it is not matched at all. *)
Lemma match_line_line_terminator (line : string) :
  existsb line_terminator (chars line) = true -> match_line line = None.
Proof.
  induction line as [|c r IH]; [discriminate|].
  cbn [chars existsb match_line]. intros H.
  assert (Hall : existsb line_terminator (chars r) = true ->
                 forallb dot_matches (chars r) = false).
  { clear. induction r as [|a r IHr]; [discriminate|].
    cbn [chars existsb forallb]. unfold dot_matches at 1.
    destruct (line_terminator a); [reflexivity|].
    intros H. rewrite (IHr H). reflexivity. }
  unfold dot_matches at 2.
  destruct (line_terminator c) eqn:Hc.
  - destruct (char_eqb_spec c SP) as [->|_]; [discriminate Hc|].
    reflexivity.
  - simpl in H. rewrite (Hall H), andb_false_r, (IH H). reflexivity.
Qed.

Lemma regex_line_add (m : jsobject) (line : string) :
  parsable_line line = true ->
  regex_line m line = Ok (add_line m (split_first_space line)).
Proof.
  unfold parsable_line, regex_line, add_line, line_key. intros H.
  apply andb_prop in H. destruct H as [Hdot Hproto].
  rewrite (match_line_split line Hdot).
  destruct (split_first_space line) as [k v]. simpl in *.
  destruct (own k m); [reflexivity|].
  apply negb_true_iff in Hproto. now rewrite Hproto.
Qed.

Lemma regex_lines_fold (lines : list string) (m : jsobject) :
  forallb parsable_line lines = true ->
  regex_lines m lines
  = Ok (fold_left add_line (map split_first_space lines) m).
Proof.
  revert m. induction lines as [|line lines IH]; simpl; intros m H.
  - reflexivity.
  - apply andb_prop in H. destruct H as [Hl Hr].
    rewrite (regex_line_add m line Hl). now apply IH.
Qed.

Lemma own_push_at (k k' : string) (v : option string) (m : jsobject) :
  own k' (push_at k v m)
  = if String.eqb k k'
    then match own k m with Some vs => Some (vs ++ [v]) | None => None end
    else own k' m.
Proof.
  induction m as [|[k0 vs] m IH]; simpl.
  - now destruct (String.eqb k k').
  - destruct (string_eqb_spec k0 k) as [->|Hne]; simpl.
    + destruct (string_eqb_spec k k'); reflexivity.
    + rewrite IH. destruct (string_eqb_spec k k') as [<-|Hkk'].
      * destruct (string_eqb_spec k0 k); [contradiction|reflexivity].
      * reflexivity.
Qed.

Lemma own_app_new (k k' : string) (vs : list (option string)) (m : jsobject) :
  own k m = None ->
  own k' (m ++ [(k, vs)]) = if String.eqb k k' then Some vs else own k' m.
Proof.
  induction m as [|[k0 vs0] m IH]; simpl; intros Hnone.
  - reflexivity.
  - destruct (string_eqb_spec k0 k) as [->|Hne]; [discriminate|].
    rewrite (IH Hnone).
    destruct (string_eqb_spec k k') as [<-|Hkk'].
    + destruct (string_eqb_spec k0 k); [contradiction|reflexivity].
    + reflexivity.
Qed.

Lemma own_add_line (k' : string) (p : string * option string) (m : jsobject) :
  own k' (add_line m p)
  = if String.eqb (fst p) k'
    then Some (match own (fst p) m with
               | Some vs => vs ++ [snd p]
               | None => [snd p]
               end)
    else own k' m.
Proof.
  unfold add_line. destruct (own (fst p) m) as [vs|] eqn:Hown.
  - rewrite own_push_at, Hown. reflexivity.
  - now rewrite own_app_new.
Qed.

(** What the accumulated object holds for a key: what it held, followed
    by the values of the lines of that key, in line order. *)
Lemma own_fold_add_line (k : string) (ps : list (string * option string))
    (m : jsobject) :
  own k (fold_left add_line ps m)
  = match map snd (filter (fun p => String.eqb (fst p) k) ps) with
    | [] => own k m
    | l => Some (match own k m with Some vs => vs ++ l | None => l end)
    end.
Proof.
  revert m. induction ps as [|p ps IH]; simpl; intros m; [reflexivity|].
  rewrite IH, own_add_line.
  destruct (string_eqb_spec (fst p) k) as [->|Hne]; simpl.
  - destruct (map snd (filter (fun p0 => String.eqb (fst p0) k) ps)) as [|v l].
    + destruct (own k m); [now rewrite ?app_nil_r | reflexivity].
    + destruct (own k m); [now rewrite <- app_assoc | reflexivity].
  - reflexivity.
Qed.

Lemma own_none_mem (k : string) (m : jsobject) :
  own k m = None <-> mem k (map fst m) = false.
Proof.
  induction m as [|[k0 vs] m IH]; simpl; [tauto|].
  rewrite (string_eqb_sym k k0).
  destruct (String.eqb k0 k); simpl; [split; discriminate | exact IH].
Qed.

Lemma keys_push_at (k : string) (v : option string) (m : jsobject) :
  map fst (push_at k v m) = map fst m.
Proof.
  induction m as [|[k0 vs] m IH]; simpl; [reflexivity|].
  destruct (String.eqb k0 k); simpl; [reflexivity | now rewrite IH].
Qed.

Lemma keys_add_line (p : string * option string) (m : jsobject) :
  map fst (add_line m p)
  = if mem (fst p) (map fst m) then map fst m else map fst m ++ [fst p].
Proof.
  unfold add_line. destruct (own (fst p) m) as [vs|] eqn:Hown.
  - rewrite keys_push_at.
    destruct (mem (fst p) (map fst m)) eqn:Hmem; [reflexivity|].
    apply own_none_mem in Hmem. congruence.
  - apply own_none_mem in Hown. rewrite Hown.
    now rewrite map_app.
Qed.

(** The keys of the accumulated object: those it had, then the new
    ones in the order of their first line. *)
Lemma keys_fold_add_line (ps : list (string * option string)) (m : jsobject) :
  map fst (fold_left add_line ps m) = first_seen (map fst ps) (map fst m).
Proof.
  revert m. induction ps as [|p ps IH]; simpl; intros m; [reflexivity|].
  now rewrite IH, keys_add_line.
Qed.

Lemma split_first_space_cons (c : char) (r : string) :
  split_first_space (String c r)
  = if Char.eqb c SP then (EmptyString, Some r)
    else (String c (fst (split_first_space r)), snd (split_first_space r)).
Proof.
  cbn [split_first_space]. destruct (Char.eqb c SP); [reflexivity|].
  now destruct (split_first_space r).
Qed.

Lemma split_first_space_at (k r : string) :
  contains SP k = false ->
  split_first_space (k ++ String SP r) = (k, Some r).
Proof.
  induction k as [|c k IH]; intros H.
  - reflexivity.
  - rewrite contains_cons in H. apply orb_false_iff in H.
    destruct H as [Hc Hk]. rewrite char_eqb_sym in Hc.
    change (String c k ++ String SP r)%js
      with (String c (k ++ String SP r)).
    rewrite split_first_space_cons, Hc, (IH Hk). reflexivity.
Qed.

Lemma split_first_space_none (line : string) :
  contains SP line = false ->
  split_first_space line = (line, None).
Proof.
  induction line as [|c r IH]; intros H.
  - reflexivity.
  - rewrite contains_cons in H. apply orb_false_iff in H.
    destruct H as [Hc Hr]. rewrite char_eqb_sym in Hc.
    rewrite split_first_space_cons, Hc, (IH Hr). reflexivity.
Qed.

(** The keys of the store contain a dot, the inherited names do not. *)
Lemma dotted_key_not_inherited (k : string) :
  contains DOT k = true -> mem k object_prototype_keys = false.
Proof.
  intros Hdot. destruct (mem k object_prototype_keys) eqn:Hmem; [|reflexivity].
  unfold mem in Hmem. apply existsb_exists in Hmem.
  destruct Hmem as (name & Hin & Heq). apply string_eqb_eq in Heq. subst name.
  simpl in Hin.
  repeat (destruct Hin as [<-|Hin]; [vm_compute in Hdot; discriminate|]).
  contradiction.
Qed.

Section RegexFacts.

Context {World : Type} (spawn_sync : list string -> World -> SpawnResult * World).

(** A regex read that succeeds on parsable lines returns the object
    accumulated line by line. *)
Lemma config_get_regex_ok (key : string) (o : options) (w w' : World)
    (result : SpawnResult) :
  regex o = true -> all o = false ->
  spawn_sync (get_command key o) w = (result, w') ->
  status result = 0%Z ->
  forallb parsable_line (output_lines result) = true ->
  config_get spawn_sync key o w
  = (Ok (GMap (fold_left add_line
                 (map split_first_space (output_lines result)) [])), w').
Proof.
  intros Hre Hall Hs Hst Hp. unfold config_get.
  rewrite (exec_zero spawn_sync _ w w' result);
    [| now rewrite get_command_flatten | exact Hst].
  rewrite Hall, Hre.
  unfold output_lines in Hp. now rewrite (regex_lines_fold _ [] Hp).
Qed.

(** A regex read whose command succeeds on lines that the pattern of
    the regex mode takes in returns a mapping whose keys are the keys
    of the output lines, created in the order of their first line, and
    which holds for each key the rest-of-line values of the lines of
    that key, in line order; each line is split at its first space. *)
Lemma config_get_regex_groups_lines (key : string) (o : options)
    (w w' : World) (result : SpawnResult) :
  regex o = true -> all o = false ->
  spawn_sync (get_command key o) w = (result, w') ->
  status result = 0%Z ->
  forallb parsable_line (output_lines result) = true ->
  exists m,
    config_get spawn_sync key o w = (Ok (GMap m), w')
    /\ map fst m = first_keys (output_lines result)
    /\ forall k,
         own k m = match values_for k (output_lines result) with
                   | [] => None
                   | vs => Some vs
                   end.
Proof.
  intros Hre Hall Hs Hst Hp.
  exists (fold_left add_line (map split_first_space (output_lines result)) []).
  split; [now apply config_get_regex_ok|]. split.
  - rewrite keys_fold_add_line. unfold first_keys, line_key.
    now rewrite map_map.
  - intros k. rewrite own_fold_add_line. unfold values_for. simpl.
    now destruct (map snd _).
Qed.

End RegexFacts.

(** C4.  A key of the store whose value holds the line separator
    U+2028: the lookup of the regex mode succeeds and prints the one
    line of the key, the pattern of the regex mode does not match that
    line, its [.] stopping at the line separator, and the read throws
    a [TypeError] where a mapping with the key and its value is due.
    The same read of a value without line terminator returns the
    mapping. *)
Theorem config_get_regex_line_separator_throws :
  GitSim.git (get_command "^k\." (with_regex no_options))
    (GitSim.mkWorld [] [("k.v", String "a" (String LS "b"))] [])
  = (GitSim.ok (String.append "k.v a" (String LS (String "b" newline))),
     GitSim.mkWorld [] [("k.v", String "a" (String LS "b"))]
       [["config"; "--get-regexp"; "^k\."]])
  /\ match_line (String.append "k.v a" (String LS "b")) = None
  /\ fst (config_get GitSim.git "^k\." (with_regex no_options)
            (GitSim.mkWorld [] [("k.v", String "a" (String LS "b"))] []))
     = Throw TypeError
  /\ fst (config_get GitSim.git "^k\." (with_regex no_options)
            (GitSim.mkWorld [] [("k.v", "a b")] []))
     = Ok (GMap [("k.v", [Some "a b"])]).
Proof. repeat split. Qed.

Lemma config_get_regex_groups_lines_witness :
  exists m,
    config_get GitSim.git "^remote\." (with_regex no_options) remote_example
    = (Ok (GMap m),
       snd (GitSim.git (get_command "^remote\." (with_regex no_options))
              remote_example))
    /\ map fst m = ["remote.origin.url"; "remote.origin.fetch";
                    "remote.upstream.url"]
    /\ forall k,
         own k m
         = match values_for k
                   (output_lines
                      (fst (GitSim.git
                              (get_command "^remote\." (with_regex no_options))
                              remote_example))) with
           | [] => None
           | vs => Some vs
           end.
Proof.
  apply (config_get_regex_groups_lines GitSim.git "^remote\."
           (with_regex no_options) remote_example
           (snd (GitSim.git (get_command "^remote\." (with_regex no_options))
                   remote_example))
           (fst (GitSim.git (get_command "^remote\." (with_regex no_options))
                   remote_example)));
    vm_compute; reflexivity.
Defined.

(** ** Subsections *)

Lemma substr_append (s t : string) (n : nat) :
  substr (String.length s + n) (s ++ t) = substr n t.
Proof. induction s as [|c s IH]; simpl; [reflexivity | exact IH]. Qed.

Lemma contains_append_cons (c : char) (s t : string) :
  contains c (s ++ String c t) = true.
Proof.
  induction s as [|a s IH].
  - change (EmptyString ++ String c t)%js with (String c t).
    rewrite contains_cons, char_eqb_refl. reflexivity.
  - change (String a s ++ String c t)%js with (String a (s ++ String c t)).
    rewrite contains_cons, IH. apply orb_true_r.
Qed.

Lemma strip_last_dot_leaf (sub leaf : string) :
  contains DOT leaf = false ->
  strip_last_dot (sub ++ String DOT leaf) = sub.
Proof.
  intros Hleaf. induction sub as [|c sub IH].
  - change (EmptyString ++ String DOT leaf)%js with (String DOT leaf).
    cbn [strip_last_dot]. rewrite char_eqb_refl, Hleaf. reflexivity.
  - change (String c sub ++ String DOT leaf)%js
      with (String c (sub ++ String DOT leaf)).
    cbn [strip_last_dot]. rewrite contains_append_cons, IH.
    now rewrite andb_false_r.
Qed.

(** A key [section.sub.leaf] names the subsection [sub]; [sub] may
    itself contain dots. *)
Lemma subsection_of_key (section sub leaf : string) :
  contains DOT leaf = false ->
  subsection_of section (section ++ String DOT (sub ++ String DOT leaf)) = sub.
Proof.
  intros Hleaf. unfold subsection_of.
  rewrite substr_append. simpl substr.
  now apply strip_last_dot_leaf.
Qed.

Section SubsectionFacts.

Context {World : Type} (spawn_sync : list string -> World -> SpawnResult * World).

Lemma config_subsections_unfold (section : string) (o : options) (w : World) :
  config_subsections spawn_sync section o w
  = bind (config_get spawn_sync (section_pattern section) (with_regex o))
         (fun r => ret (map (subsection_of section) (keys (Read r)))) w.
Proof.
  unfold config_subsections, config, section_pattern, subsection_of, bind, ret.
  simpl.
  destruct (config_get spawn_sync _ (with_regex o) w) as [[r|e] w1];
    reflexivity.
Qed.

(** No key matches: no subsection. *)
Lemma config_subsections_miss (section : string) (o : options) (w : World) :
  status (fst (spawn_sync (get_command (section_pattern section)
                             (with_regex o)) w)) <> 0%Z ->
  fst (config_subsections spawn_sync section o w) = Ok [].
Proof.
  intros Hst. rewrite config_subsections_unfold.
  erewrite bind_ok; [| now apply config_get_miss].
  simpl. rewrite orb_true_r. reflexivity.
Qed.

(** [subsections] runs the regex read of the pattern that anchors the
    section name followed by a dot; when the read succeeds on lines
    that the pattern of the regex mode takes in, the result lists, for
    each key of the mapping in the order of enumeration, the key
    without its first [length section + 1] characters and without its
    last dot and what follows it; for a key [section.sub.leaf] that is
    [sub]. *)
Lemma config_subsections_strips_keys (section : string) (o : options)
    (w w' : World) (result : SpawnResult) :
  all o = false ->
  spawn_sync (get_command (section_pattern section) (with_regex o)) w
  = (result, w') ->
  status result = 0%Z ->
  forallb parsable_line (output_lines result) = true ->
  config_subsections spawn_sync section o w
  = (Ok (map (subsection_of section)
           (own_keys (fold_left add_line
                        (map split_first_space (output_lines result)) []))),
     w')
  /\ (forall sub leaf,
        contains DOT leaf = false ->
        subsection_of section
          (section ++ String DOT (sub ++ String DOT leaf)) = sub).
Proof.
  intros Hall Hs Hst Hp. split.
  - rewrite config_subsections_unfold.
    erewrite bind_ok;
      [| apply (config_get_regex_ok spawn_sync _ (with_regex o) w w' result);
         [reflexivity | exact Hall | exact Hs | exact Hst | exact Hp]].
    reflexivity.
  - intros sub leaf. apply subsection_of_key.
Qed.

End SubsectionFacts.

(** Over the keys [remote.origin.url], [remote.origin.fetch] and
    [remote.upstream.url] the result is [origin; origin; upstream],
    which has the elements of [origin; upstream]. *)
Lemma config_subsections_remote_example :
  fst (config_subsections GitSim.git "remote" no_options remote_example)
  = Ok ["origin"; "origin"; "upstream"]
  /\ (forall x, In x ["origin"; "origin"; "upstream"]
                <-> In x ["origin"; "upstream"]).
Proof. split; [reflexivity | simpl; tauto]. Qed.

(** C7.  A section with a key whose value holds the line separator
    U+2028: the regex read of the section succeeds in the store and
    prints the line of each key, the pattern of the regex mode does
    not match the line of that value, and [subsections] throws a
    [TypeError] where the subsection names of the matched keys are
    due.  With a space in the place of the line separator it returns
    them. *)
Theorem config_subsections_line_separator_throws :
  status (fst (GitSim.git (get_command (section_pattern "branch")
                             (with_regex no_options))
                 (described_branch (String "a" (String LS "b"))))) = 0%Z
  /\ fst (config_subsections GitSim.git "branch" no_options
            (described_branch (String "a" (String LS "b"))))
     = Throw TypeError
  /\ fst (config_subsections GitSim.git "branch" no_options
            (described_branch "a b"))
     = Ok ["master"; "master"].
Proof. repeat split. Qed.

(** A value of several lines: each further line is read as a key of
    its own, and a name that is an array index is enumerated before
    the keys of the store, whatever the order of the output. *)
Lemma config_subsections_index_names_first :
  output_lines
    (fst (GitSim.git (get_command (section_pattern "branch")
                        (with_regex no_options))
            (described_branch
               (String.append "x" (String LF (String.append "10 b"
                  (String LF "9 c")))))))
  = ["branch.master.remote origin"; "branch.master.description x";
     "10 b"; "9 c"]
  /\ fst (config_get GitSim.git (section_pattern "branch")
            (with_regex no_options)
            (described_branch
               (String.append "x" (String LF (String.append "10 b"
                  (String LF "9 c"))))))
     = Ok (GMap [("branch.master.remote", [Some "origin"]);
                 ("branch.master.description", [Some "x"]);
                 ("10", [Some "b"]); ("9", [Some "c"])])
  /\ fst (config_subsections GitSim.git "branch" no_options
            (described_branch
               (String.append "x" (String LF (String.append "10 b"
                  (String LF "9 c"))))))
     = Ok [""; ""; "master"; "master"].
Proof. repeat split. Qed.

(** ** The wrapper against the in-memory store *)

Module SimFacts.
Import GitSim.

Lemma leading_options_flags (flags rest : list string) (key : string) :
  forallb is_option flags = true -> is_option key = false ->
  leading_options (flags ++ key :: rest) = (flags, key :: rest).
Proof.
  intros Hf Hk. induction flags as [|f flags IH].
  - cbn [app leading_options]. now rewrite Hk.
  - cbn [forallb] in Hf. apply andb_prop in Hf. destruct Hf as [Hf1 Hf2].
    cbn [app leading_options]. rewrite Hf1, (IH Hf2). reflexivity.
Qed.

Lemma scope_flags_options (o : options) :
  forallb is_option (scope_flags o) = true.
Proof. unfold scope_flags. destruct (global o), (local o); reflexivity. Qed.

(** *** Arguments and keys *)

Lemma passable_well_formed (s : string) :
  passable s = true -> to_well_formed s = s.
Proof.
  unfold passable. intros H. apply andb_prop in H.
  now apply string_eqb_eq.
Qed.

Lemma passable_no_nul (s : string) :
  passable s = true -> contains NUL s = false.
Proof.
  unfold passable. intros H. apply andb_prop in H.
  now apply negb_true_iff.
Qed.

Lemma scope_flags_passable (o : options) :
  forallb passable (scope_flags o) = true.
Proof. unfold scope_flags. destruct (global o), (local o); reflexivity. Qed.

Lemma passable_args (args : list string) :
  forallb passable args = true ->
  existsb (contains NUL) args = false /\ map to_well_formed args = args.
Proof.
  induction args as [|a args IH]; intros H; [split; reflexivity|].
  cbn [forallb] in H. apply andb_prop in H. destruct H as [Ha Hr].
  destruct (IH Hr) as [IH1 IH2].
  cbn [existsb map].
  now rewrite (passable_no_nul a Ha), (passable_well_formed a Ha), IH1, IH2.
Qed.

(** A command line of passable arguments reaches [git config] as it
    is. *)
Lemma git_config (rest : list string) (w : world) :
  forallb passable rest = true ->
  git ("config" :: rest) w = config_cmd rest (logged ("config" :: rest) w).
Proof.
  intros H.
  assert (H' : forallb passable ("config" :: rest) = true)
    by (cbn [forallb]; now rewrite H).
  destruct (passable_args _ H') as [Hnul Hwf].
  unfold git. cbv zeta. rewrite Hnul, Hwf. reflexivity.
Qed.

Lemma store_key_accepted (key : string) :
  store_key key = true ->
  key_error key = None /\ canon key = key /\ passable key = true.
Proof.
  unfold store_key. destruct (key_error key); [discriminate|].
  intros H. apply andb_prop in H. destruct H as [Hc Hp].
  apply string_eqb_eq in Hc. auto.
Qed.

Lemma values_of_lookup (key : string) (f : list entry) :
  store_key key = true -> values_of key f = lookup key f.
Proof. unfold values_of. now intros ->. Qed.

Lemma values_of_store_key (key : string) (f : list entry) :
  values_of key f <> [] -> store_key key = true.
Proof.
  unfold values_of. destruct (store_key key); [reflexivity | contradiction].
Qed.

(** *** Commands *)

Lemma git_add_step (key : string) (o : options) (val : string) (w : world) :
  store_key key = true -> is_option key = false -> passable val = true ->
  one_scope o = true ->
  git (add_command key o val) w = (ok "", add_step key o val w).
Proof.
  intros Hkey Hk Hval Hs. unfold one_scope in Hs.
  destruct (store_key_accepted key Hkey) as (Herr & Hcanon & Hpass).
  unfold add_command. rewrite git_config.
  - unfold add_step, add_command, config_cmd.
    change (scope_flags o ++ ["--add"; key; val])
      with (scope_flags o ++ ["--add"] ++ key :: [val]).
    rewrite app_assoc, leading_options_flags; [| | exact Hk].
    + unfold scope_flags.
      destruct (global o), (local o); try discriminate;
        cbn; rewrite Herr, Hcanon; reflexivity.
    + rewrite forallb_app, scope_flags_options. reflexivity.
  - rewrite forallb_app, scope_flags_passable. cbn [forallb].
    now rewrite Hpass, Hval.
Qed.

Lemma git_unset_all_step (key : string) (o : options) (w : world) :
  store_key key = true -> is_option key = false -> one_scope o = true ->
  git (unset_all_command key o) w
  = match values_of key (write_file (global o) w) with
    | [] => (failed 5 "", logged (unset_all_command key o) w)
    | _ => (ok "", unset_all_step key o w)
    end.
Proof.
  intros Hkey Hk Hs. unfold one_scope in Hs.
  destruct (store_key_accepted key Hkey) as (Herr & Hcanon & Hpass).
  rewrite (values_of_lookup key _ Hkey).
  unfold unset_all_command. rewrite git_config.
  - unfold unset_all_step, unset_all_command, config_cmd.
    change ("--unset-all" :: scope_flags o ++ [key])
      with (("--unset-all" :: scope_flags o) ++ key :: []).
    rewrite leading_options_flags; [| | exact Hk].
    + unfold scope_flags.
      destruct (global o), (local o); try discriminate;
        cbn; rewrite Herr, Hcanon; reflexivity.
    + cbn [forallb]. rewrite scope_flags_options. reflexivity.
  - cbn [forallb]. rewrite forallb_app, scope_flags_passable. cbn [forallb].
    now rewrite Hpass.
Qed.

(** *** Files *)

Lemma write_file_with (g : bool) (f : list entry) (w : world) :
  write_file g (with_write_file g f w) = f.
Proof. destruct g; reflexivity. Qed.

Lemma other_file_with (g : bool) (f : list entry) (w : world) :
  write_file (negb g) (with_write_file g f w) = write_file (negb g) w.
Proof. destruct g; reflexivity. Qed.

Lemma log_with (g : bool) (f : list entry) (w : world) :
  log (with_write_file g f w) = log w.
Proof. destruct g; reflexivity. Qed.

Lemma with_write_file_same (g : bool) (w : world) :
  with_write_file g (write_file g w) w = w.
Proof. destruct g, w; reflexivity. Qed.

Lemma lookup_app (key : string) (f1 f2 : list entry) :
  lookup key (f1 ++ f2) = lookup key f1 ++ lookup key f2.
Proof. unfold lookup. now rewrite filter_app, map_app. Qed.

Lemma values_of_app (key : string) (f1 f2 : list entry) :
  values_of key (f1 ++ f2) = values_of key f1 ++ values_of key f2.
Proof.
  unfold values_of. destruct (store_key key); [apply lookup_app | reflexivity].
Qed.

Lemma lookup_remove_key (key : string) (f : list entry) :
  lookup key (remove_key key f) = [].
Proof.
  unfold lookup, remove_key. induction f as [|e f IH]; simpl; [reflexivity|].
  destruct (String.eqb (fst e) key) eqn:E; simpl; [exact IH|].
  now rewrite E.
Qed.

Lemma values_of_remove_key (key : string) (f : list entry) :
  values_of key (remove_key key f) = [].
Proof.
  unfold values_of. destruct (store_key key);
    [apply lookup_remove_key | reflexivity].
Qed.

Lemma lookup_remove_other (key k : string) (f : list entry) :
  k <> key -> lookup k (remove_key key f) = lookup k f.
Proof.
  intros Hne. unfold lookup, remove_key.
  induction f as [|e f IH]; simpl; [reflexivity|].
  destruct (string_eqb_spec (fst e) key) as [He|He]; simpl.
  - destruct (string_eqb_spec (fst e) k); [congruence | exact IH].
  - destruct (String.eqb (fst e) k); simpl; now rewrite IH.
Qed.

Lemma values_of_remove_other (key k : string) (f : list entry) :
  k <> key -> values_of k (remove_key key f) = values_of k f.
Proof.
  intros Hne. unfold values_of.
  destruct (store_key k); [now apply lookup_remove_other | reflexivity].
Qed.

Lemma remove_key_absent (key : string) (f : list entry) :
  lookup key f = [] -> remove_key key f = f.
Proof.
  unfold lookup, remove_key. induction f as [|e f IH]; simpl; [reflexivity|].
  destruct (String.eqb (fst e) key); simpl; [discriminate|].
  intros H. now rewrite (IH H).
Qed.

(** The entries of a key are entries of its section. *)
Lemma lookup_no_section (key : string) (f : list entry) :
  existsb (same_section key) f = false -> lookup key f = [].
Proof.
  unfold lookup. induction f as [|x f IH]; [reflexivity|].
  cbn [existsb filter]. intros H. apply orb_false_iff in H.
  destruct H as [Hx Hf].
  destruct (string_eqb_spec (fst x) key) as [E|_]; [|exact (IH Hf)].
  unfold same_section in Hx. now rewrite E, string_eqb_refl in Hx.
Qed.

(** A new entry comes after the values that the file holds for its
    key, and leaves the values of the other keys as they are. *)
Lemma lookup_insert_entry (key val : string) (f : list entry) :
  lookup key (insert_entry (key, val) f) = lookup key f ++ [val].
Proof.
  induction f as [|x f IH].
  - unfold lookup. cbn. now rewrite string_eqb_refl.
  - cbn [insert_entry fst].
    destruct (same_section key x && negb (existsb (same_section key) f))
      eqn:E.
    + apply andb_prop in E. destruct E as [_ E]. apply negb_true_iff in E.
      change (x :: (key, val) :: f) with ([x] ++ [(key, val)] ++ f).
      change (x :: f) with ([x] ++ f).
      rewrite !lookup_app, (lookup_no_section key f E), !app_nil_r.
      f_equal. unfold lookup. cbn. now rewrite string_eqb_refl.
    + change (x :: insert_entry (key, val) f)
        with ([x] ++ insert_entry (key, val) f).
      change (x :: f) with ([x] ++ f).
      now rewrite !lookup_app, IH, app_assoc.
Qed.

Lemma lookup_insert_other (key k val : string) (f : list entry) :
  k <> key -> lookup k (insert_entry (key, val) f) = lookup k f.
Proof.
  intros Hne.
  assert (Hnew : lookup k [(key, val)] = []).
  { unfold lookup. cbn [filter fst].
    destruct (string_eqb_spec key k) as [E|_]; [congruence | reflexivity]. }
  induction f as [|x f IH]; [exact Hnew|].
  cbn [insert_entry fst].
  destruct (same_section key x && negb (existsb (same_section key) f)).
  - change (x :: (key, val) :: f) with ([x] ++ [(key, val)] ++ f).
    change (x :: f) with ([x] ++ f).
    now rewrite !lookup_app, Hnew.
  - change (x :: insert_entry (key, val) f)
      with ([x] ++ insert_entry (key, val) f).
    change (x :: f) with ([x] ++ f).
    now rewrite !lookup_app, IH.
Qed.

Lemma values_of_insert_entry (key val : string) (f : list entry) :
  store_key key = true ->
  values_of key (insert_entry (key, val) f) = values_of key f ++ [val].
Proof.
  intros H. rewrite !(values_of_lookup key _ H). apply lookup_insert_entry.
Qed.

Lemma values_of_insert_other (key k val : string) (f : list entry) :
  k <> key -> values_of k (insert_entry (key, val) f) = values_of k f.
Proof.
  intros Hne. unfold values_of.
  destruct (store_key k); [now apply lookup_insert_other | reflexivity].
Qed.

(** *** Writes *)

Lemma write_file_add_step (key : string) (o : options) (val : string)
    (w : world) :
  write_file (global o) (add_step key o val w)
  = insert_entry (key, val) (write_file (global o) w).
Proof.
  unfold add_step. rewrite write_file_with. destruct (global o); reflexivity.
Qed.

Lemma other_file_add_step (key : string) (o : options) (val : string)
    (w : world) :
  write_file (negb (global o)) (add_step key o val w)
  = write_file (negb (global o)) w.
Proof.
  unfold add_step. rewrite other_file_with. destruct (global o); reflexivity.
Qed.

Lemma values_of_add_steps (key : string) (o : options) (vals : list string)
    (w : world) :
  store_key key = true ->
  values_of key (write_file (global o) (add_steps key o vals w))
  = values_of key (write_file (global o) w) ++ vals.
Proof.
  intros Hkey. unfold add_steps. revert w.
  induction vals as [|v vals IH]; intros w; simpl.
  - now rewrite app_nil_r.
  - rewrite IH, write_file_add_step, (values_of_insert_entry key v _ Hkey).
    now rewrite <- app_assoc.
Qed.

Lemma other_file_add_steps (key : string) (o : options) (vals : list string)
    (w : world) :
  write_file (negb (global o)) (add_steps key o vals w)
  = write_file (negb (global o)) w.
Proof.
  unfold add_steps. revert w. induction vals as [|v vals IH]; intros w; simpl.
  - reflexivity.
  - now rewrite IH, other_file_add_step.
Qed.

(** The writes of the values of a request all succeed. *)
Lemma run_all_add_steps (key : string) (o : options) (vals : list string)
    (w : world) :
  store_key key = true -> is_option key = false -> one_scope o = true ->
  forallb passable vals = true ->
  run_all git (map (add_command key o) vals) w
  = (None, add_steps key o vals w).
Proof.
  intros Hkey Hk Hs. revert w.
  induction vals as [|v vals IH]; intros w Hv; [reflexivity|].
  cbn [forallb] in Hv. apply andb_prop in Hv. destruct Hv as [Hv Hvs].
  cbn [map run_all]. rewrite (git_add_step key o v w Hkey Hk Hv Hs).
  cbn [status ok Z.eqb]. now rewrite IH.
Qed.

(** The state that the removal of the values of a key leaves, whether
    it succeeds or not: the file of the scope without the key. *)
Lemma git_unset_all_state (key : string) (o : options) (w : world) :
  store_key key = true -> is_option key = false -> one_scope o = true ->
  snd (git (unset_all_command key o) w) = unset_all_step key o w.
Proof.
  intros Hkey Hk Hs. rewrite (git_unset_all_step key o w Hkey Hk Hs).
  destruct (values_of key (write_file (global o) w)) eqn:Hv; [|reflexivity].
  rewrite (values_of_lookup key _ Hkey) in Hv.
  cbn [snd]. unfold unset_all_step. rewrite (remove_key_absent key _ Hv).
  change (write_file (global o) w)
    with (write_file (global o) (logged (unset_all_command key o) w)).
  now rewrite with_write_file_same.
Qed.

(** The removal leaves the key without a value in the file of the
    scope, and a write appends its value to those of the key. *)
Lemma git_unset_all_clears (key : string) (o : options) (w : world) :
  store_key key = true -> is_option key = false -> one_scope o = true ->
  values_of key (write_file (global o)
                   (snd (git (unset_all_command key o) w))) = [].
Proof.
  intros Hkey Hk Hs. rewrite (git_unset_all_state key o w Hkey Hk Hs).
  unfold unset_all_step. now rewrite write_file_with, values_of_remove_key.
Qed.

Lemma git_add_appends (key : string) (o : options) (val : string) (w : world) :
  store_key key = true -> is_option key = false -> one_scope o = true ->
  passable val = true ->
  values_of key (write_file (global o) (snd (git (add_command key o val) w)))
  = values_of key (write_file (global o) w) ++ [val].
Proof.
  intros Hkey Hk Hs Hv. rewrite (git_add_step key o val w Hkey Hk Hv Hs).
  cbn [snd]. rewrite write_file_add_step. now apply values_of_insert_entry.
Qed.

End SimFacts.

Section ReplaceFacts.

Context {World : Type} (spawn_sync : list string -> World -> SpawnResult * World).

(** The values that the store holds for the key in the scope. *)
Variable held : World -> list string.

(** C1, amended.  In the replace mode, whatever the executable does:
    the call runs the removal of every value of the key and goes on
    from the state that the removal leaves, whatever its exit status,
    where the removal alone throws when it fails; it then runs one
    write per requested value, in order and up to the first write
    that fails, and returns the requested values when every write
    succeeds, the error of the failed write being thrown otherwise.
    When the removal leaves the key without a value and each
    successful write appends its value to the values of the key, the
    store holds exactly the requested values for the key once every
    write has succeeded. *)
Theorem config_set_replaces (key : string) (values : jsval) (o : options)
    (w : World) :
  add o = false ->
  let w1 := snd (spawn_sync (unset_all_command key o) w) in
  let r := run_all spawn_sync (map (add_command key o) (castArray values)) w1 in
  config_set spawn_sync key values o w = writes_outcome (castArray values) r
  /\ (status (fst (spawn_sync (unset_all_command key o) w)) <> 0%Z ->
      exists e, fst (config_unset spawn_sync key o w) = Throw (GitErr e))
  /\ (held w1 = [] ->
      (forall v w0,
         In v (castArray values) ->
         status (fst (spawn_sync (add_command key o v) w0)) = 0%Z ->
         held (snd (spawn_sync (add_command key o v) w0)) = held w0 ++ [v]) ->
      fst r = None ->
      held (snd r) = castArray values).
Proof.
  intros Hadd w1 r. subst w1 r. repeat apply conj.
  - rewrite config_set_runs. unfold values_to_write, before_writes.
    rewrite Hadd. reflexivity.
  - apply config_unset_throws.
  - intros Hunset Hwrite Hnone.
    rewrite (run_all_held spawn_sync held key o (castArray values) Hwrite
               (castArray values) _ (fun x Hx => Hx) Hnone).
    now rewrite Hunset.
Qed.

End ReplaceFacts.

Lemma config_set_replaces_witness :
  config_set GitSim.git "user.name" (JArr ["Bob"; "Robert"]) no_options
    (GitSim.mkWorld [] [("user.name", "Alice"); ("user.email", "a@b.c")] [])
  = (Ok ["Bob"; "Robert"],
     GitSim.mkWorld []
       [("user.email", "a@b.c"); ("user.name", "Bob"); ("user.name", "Robert")]
       [["config"; "--unset-all"; "user.name"];
        ["config"; "--add"; "user.name"; "Bob"];
        ["config"; "--add"; "user.name"; "Robert"]])
  /\ GitSim.values_of "user.name"
       [("user.email", "a@b.c"); ("user.name", "Bob"); ("user.name", "Robert")]
     = ["Bob"; "Robert"].
Proof.
  destruct (config_set_replaces GitSim.git
              (fun w => GitSim.values_of "user.name" (GitSim.local_file w))
              "user.name" (JArr ["Bob"; "Robert"]) no_options
              (GitSim.mkWorld []
                 [("user.name", "Alice"); ("user.email", "a@b.c")] [])
              eq_refl)
    as (Hset & _ & Hheld).
  split; [exact Hset|].
  apply Hheld; [reflexivity | | reflexivity].
  intros v w0 Hin _.
  apply (SimFacts.git_add_appends "user.name" no_options v w0);
    try reflexivity.
  destruct Hin as [<-|[<-|[]]]; reflexivity.
Defined.

(** C1, counterexample.  A key without a section: the store refuses
    it, the removal fails and is passed over, the first write fails
    with status 2, and the call throws with nothing written. *)
Lemma config_set_rejected_key :
  config_set GitSim.git "nodot" (JStr "v") no_options GitSim.empty
  = (Throw (GitErr (mkGitError 2 (Some (Str "config")) ""
                      "error: key does not contain a section: nodot")),
     GitSim.mkWorld [] []
       [["config"; "--unset-all"; "nodot"];
        ["config"; "--add"; "nodot"; "v"]]).
Proof. reflexivity. Qed.

(** C5.  The key holds ["a*"] and ["aa"], and ["a*"] is to be removed.
    The intersection with the current values is ["a*"]; the value is
    anchored but not escaped, so the pattern is [^a*$], a run of [a]:
    it matches ["aa"] and not ["a*"].  The store removes ["aa"], a
    value that was not requested, the requested value stays, and the
    call returns it as removed. *)
Theorem config_unsetMatching_pattern_not_exact :
  config_unsetMatching GitSim.git "k.v" (JArr ["a*"]) no_options
    (GitSim.mkWorld [] [("k.v", "a*"); ("k.v", "aa")] [])
  = (Ok ["a*"],
     GitSim.mkWorld [] [("k.v", "a*")]
       [["config"; "--get-all"; "k.v"];
        ["config"; "--unset"; "k.v"; "^a*$"]]).
Proof. reflexivity. Qed.

(** The same defect when the value is alone: its pattern does not
    match it, the removal exits with status 5 and the call throws. *)
Lemma config_unsetMatching_pattern_misses :
  config_unsetMatching GitSim.git "k.v" (JArr ["a*"]) no_options
    (GitSim.mkWorld [] [("k.v", "a*")] [])
  = (Throw (GitErr (mkGitError 5 (Some (Str "config")) "" "")),
     GitSim.mkWorld [] [("k.v", "a*")]
       [["config"; "--get-all"; "k.v"];
        ["config"; "--unset"; "k.v"; "^a*$"]]).
Proof. reflexivity. Qed.

(** Values without pattern characters are removed one by one. *)
Lemma config_unsetMatching_plain_values :
  config_unsetMatching GitSim.git "k.v" (JArr ["a"; "c"; "z"; "a"]) no_options
    (GitSim.mkWorld [] [("k.v", "a"); ("k.v", "b"); ("k.v", "c")] [])
  = (Ok ["a"; "c"],
     GitSim.mkWorld [] [("k.v", "b")]
       [["config"; "--get-all"; "k.v"];
        ["config"; "--unset"; "k.v"; "^a$"];
        ["config"; "--unset"; "k.v"; "^c$"]]).
Proof. reflexivity. Qed.

(** C6.  A unique append of ["a"; "a"] to a key without a value, twice.
    The first call finds no current value, and [_.difference] keeps
    both elements of the request: ["a"] is written twice.  The second
    call adds nothing, and the key holds ["a"] twice. *)
Theorem config_set_unique_repeats_value :
  let o := mkOptions false false false false true true in
  let first := config_set GitSim.git "k.v" (JArr ["a"; "a"]) o GitSim.empty in
  let second := config_set GitSim.git "k.v" (JArr ["a"; "a"]) o (snd first) in
  fst first = Ok ["a"; "a"]
  /\ fst second = Ok []
  /\ fst (config_get GitSim.git "k.v" (with_all no_options) (snd second))
     = Ok (GList ["a"; "a"]).
Proof. repeat split. Qed.

(** A value that ends in white space is not recognised when it is read
    back, [exec] having trimmed the output: the second call writes it
    again. *)
Lemma config_set_unique_trailing_space :
  let o := mkOptions false false false false true true in
  let first := config_set GitSim.git "k.v" (JArr ["a "]) o GitSim.empty in
  let second := config_set GitSim.git "k.v" (JArr ["a "]) o (snd first) in
  fst second = Ok ["a "]
  /\ GitSim.values_of "k.v" (GitSim.local_file (snd second)) = ["a "; "a "].
Proof. repeat split. Qed.

(** * Further properties *)

(** ** Trimmed output and lines *)

Lemma trimRight_cons (c : char) (r : string) :
  trimRight (String c r)
  = match trimRight r with
    | EmptyString => if is_space c then EmptyString else String c EmptyString
    | String a r' => String c (String a r')
    end.
Proof. reflexivity. Qed.

Lemma ends_in_space_trimRight (s : string) :
  ends_in_space (trimRight s) = false.
Proof.
  induction s as [|c r IH]; [reflexivity|].
  rewrite trimRight_cons. destruct (trimRight r) as [|a r'].
  - destruct (is_space c) eqn:Hc; [reflexivity|]. simpl. exact Hc.
  - exact IH.
Qed.

Lemma trimRight_fixed (s : string) :
  ends_in_space s = false -> trimRight s = s.
Proof.
  induction s as [|c r IH]; [reflexivity|].
  intros H. rewrite trimRight_cons. destruct r as [|a r'].
  - simpl in H. simpl. now rewrite H.
  - rewrite (IH H). reflexivity.
Qed.

Lemma trimRight_newline (s : string) :
  trimRight (s ++ newline) = trimRight s.
Proof.
  induction s as [|c r IH]; [reflexivity|].
  change (String c r ++ newline)%js with (String c (r ++ newline)).
  now rewrite !trimRight_cons, IH.
Qed.

Lemma split_nonempty (sep : char) (s : string) : split sep s <> [].
Proof.
  destruct s as [|c r]; [discriminate|]. cbn [split].
  destruct (Char.eqb c sep); [discriminate|].
  destruct (split sep r); discriminate.
Qed.

Lemma concat_cons_head (sep : string) (c : char) (p : string) (ps : list string) :
  String.concat sep (String c p :: ps) = String c (String.concat sep (p :: ps)).
Proof. destruct ps; reflexivity. Qed.

(** Joining the pieces of a split gives the string back. *)
Lemma concat_split (sep : char) (s : string) :
  String.concat (String sep EmptyString) (split sep s) = s.
Proof.
  induction s as [|c r IH]; [reflexivity|]. cbn [split].
  destruct (char_eqb_spec c sep) as [->|Hne].
  - destruct (split sep r) as [|p ps] eqn:E;
      [now apply split_nonempty in E|].
    change (String.concat (String sep EmptyString) (EmptyString :: p :: ps))
      with (String sep (String.concat (String sep EmptyString) (p :: ps))).
    now rewrite IH.
  - destruct (split sep r) as [|p ps] eqn:E;
      [now apply split_nonempty in E|].
    now rewrite concat_cons_head, IH.
Qed.

Section OutputFacts.

Context {World : Type} (spawn_sync : list string -> World -> SpawnResult * World).

(** X1.  What [exec] returns never ends in white space: trimming it
    again changes nothing. *)
Theorem exec_output_is_trimmed (arguments : list arg) (w w' : World)
    (out : string) :
  exec spawn_sync arguments w = (Ok out, w') ->
  ends_in_space out = false /\ trimRight out = out.
Proof.
  rewrite exec_unfold.
  destruct (spawn_sync (flattenDeep arguments) w) as [result w1].
  destruct (status result =? 0)%Z; [|discriminate].
  intros H. injection H as <- _.
  split; [apply ends_in_space_trimRight|].
  apply trimRight_fixed, ends_in_space_trimRight.
Qed.



(** X4.  [dir] and [inRepo] run the same command: from the same state
    [dir] returns a value exactly when [inRepo] is [true], and throws
    a [GitError] when it is [false]; both leave the same state. *)
Theorem dir_succeeds_iff_inRepo (w : World) :
  snd (dir spawn_sync w) = snd (inRepo spawn_sync w)
  /\ (fst (inRepo spawn_sync w) = true
      -> exists out, fst (dir spawn_sync w) = Ok out)
  /\ (fst (inRepo spawn_sync w) = false
      -> exists e, fst (dir spawn_sync w) = Throw (GitErr e)).
Proof.
  unfold dir, inRepo. rewrite exec_unfold, execSuccess_unfold.
  destruct (spawn_sync _ w) as [result w1]. simpl.
  destruct (status result =? 0)%Z; simpl; repeat split;
    try discriminate; eauto.
Qed.

End OutputFacts.

Lemma exec_output_is_trimmed_witness :
  ends_in_space "Alice" = false /\ trimRight "Alice" = "Alice".
Proof.
  apply (exec_output_is_trimmed GitSim.git
           [Str "config"; Str "user.name"]
           (GitSim.mkWorld [] [("user.name", "Alice")] [])
           (GitSim.mkWorld [] [("user.name", "Alice")]
              [["config"; "user.name"]])
           "Alice").
  reflexivity.
Defined.



(** ** Change ids *)

Lemma span_cons (f : char -> bool) (c : char) (r : string) :
  span f (String c r)
  = if f c then (String c (fst (span f r)), snd (span f r))
    else (EmptyString, String c r).
Proof. cbn [span]. destruct (f c); [|reflexivity]. now destruct (span f r). Qed.

Lemma span_run (f : char -> bool) (s : string) :
  forallb f (chars (fst (span f s))) = true.
Proof.
  induction s as [|c r IH]; [reflexivity|].
  rewrite span_cons. destruct (f c) eqn:Hc; [|reflexivity].
  simpl. now rewrite Hc, IH.
Qed.

(** A run of the class followed by something that is not of the class
    is what [span] cuts off. *)
Lemma span_app (f : char -> bool) (run rest : string) :
  forallb f (chars run) = true ->
  match rest with EmptyString => true | String d _ => negb (f d) end = true ->
  span f (run ++ rest) = (run, rest).
Proof.
  intros Hrun Hrest. induction run as [|c r IH].
  - change (EmptyString ++ rest)%js with rest.
    destruct rest as [|d rest']; [reflexivity|].
    rewrite span_cons. apply negb_true_iff in Hrest. now rewrite Hrest.
  - simpl in Hrun. apply andb_prop in Hrun. destruct Hrun as [Hc Hr].
    change (String c r ++ rest)%js with (String c (r ++ rest)).
    rewrite span_cons, Hc, (IH Hr). reflexivity.
Qed.

Lemma strip_prefix_app (p s : string) : strip_prefix p (p ++ s) = Some s.
Proof.
  induction p as [|a p IH]; [reflexivity|].
  simpl. now rewrite char_eqb_refl.
Qed.

(** A prefix without the character [c] that a line does not start with
    is not found either when [c] and more follow the line. *)
Lemma strip_prefix_line (p line more : string) (c : char) :
  contains c p = false ->
  strip_prefix p line = None ->
  strip_prefix p (line ++ String c more) = None.
Proof.
  revert line. induction p as [|a p IH]; intros line Hp Hnone;
    [discriminate|].
  rewrite contains_cons in Hp. apply orb_false_iff in Hp.
  destruct Hp as [Hca Hp].
  destruct line as [|b line].
  - change (EmptyString ++ String c more)%js with (String c more).
    cbn [strip_prefix]. rewrite char_eqb_sym, Hca. reflexivity.
  - change (String b line ++ String c more)%js
      with (String b (line ++ String c more)).
    cbn [strip_prefix] in *. destruct (Char.eqb a b); [|reflexivity].
    now apply IH.
Qed.

Lemma line_terminator_not_alnum (d : char) :
  line_terminator d = true -> lower_alnum d = false.
Proof.
  unfold line_terminator. intros H. apply existsb_exists in H.
  destruct H as (x & Hin & Heq). apply N.eqb_eq in Heq. subst x.
  simpl in Hin. repeat (destruct Hin as [<-|Hin]; [reflexivity|]).
  contradiction.
Qed.

Lemma change_id_here_sound (s id : string) :
  change_id_here s = Some id -> change_id id = true.
Proof.
  unfold change_id_here. destruct (strip_prefix "Change-Id:" s) as [r|];
    [|discriminate].
  destruct (snd (span is_space r)) as [|c r']; [discriminate|].
  destruct (Char.eqb c "I") eqn:Hc; [|discriminate].
  pose proof (span_run lower_alnum r') as Hrun.
  destruct (span lower_alnum r') as [run rest]. simpl in Hrun.
  destruct run as [|a run]; [discriminate|].
  assert (Hid : change_id (String c (String a run)) = true).
  { unfold change_id. rewrite Hc. simpl. simpl in Hrun. exact Hrun. }
  destruct rest as [|d rest].
  - intros H. injection H as <-. exact Hid.
  - destruct (line_terminator d); [|discriminate].
    intros H. injection H as <-. exact Hid.
Qed.

Lemma change_id_from_sound (message id : string) (line_start : bool) :
  change_id_from line_start message = Some id -> change_id id = true.
Proof.
  revert line_start. induction message as [|c r IH]; intros line_start.
  - cbn [change_id_from]. destruct line_start; [|discriminate].
    destruct (change_id_here "") eqn:E; [|discriminate].
    intros H. injection H as <-. now apply change_id_here_sound in E.
  - cbn [change_id_from].
    destruct (if line_start then change_id_here (String c r) else None)
      as [id'|] eqn:E.
    + intros H. injection H as <-. destruct line_start; [|discriminate].
      now apply change_id_here_sound in E.
    + apply IH.
Qed.

Lemma change_id_here_found (ws id rest : string) :
  forallb is_space (chars ws) = true ->
  change_id id = true -> ends_line rest = true ->
  change_id_here ("Change-Id:" ++ ws ++ id ++ rest) = Some id.
Proof.
  intros Hws Hid Hrest. unfold change_id_here.
  rewrite strip_prefix_app.
  destruct id as [|c run]; [discriminate|].
  unfold change_id in Hid. apply andb_prop in Hid. destruct Hid as [Hid Hrun].
  apply andb_prop in Hid. destruct Hid as [Hc Hne].
  apply char_eqb_eq in Hc. subst c.
  rewrite (span_app is_space ws _ Hws); [|reflexivity].
  cbn [snd].
  change (String "I" run ++ rest)%js with (String "I" (run ++ rest)).
  cbv beta iota. rewrite char_eqb_refl.
  rewrite (span_app lower_alnum run rest Hrun).
  - destruct run as [|a run]; [discriminate|].
    destruct rest as [|d rest]; [reflexivity|].
    simpl in Hrest. now rewrite Hrest.
  - destruct rest as [|d rest]; [reflexivity|].
    simpl in Hrest. now rewrite (line_terminator_not_alnum d Hrest).
Qed.

Lemma change_id_from_rest_of_line (line more : string) :
  existsb line_terminator (chars line) = false ->
  change_id_from false (line ++ String LF more) = change_id_from true more.
Proof.
  intros H. induction line as [|c r IH].
  - reflexivity.
  - simpl in H. apply orb_false_iff in H. destruct H as [Hc Hr].
    change (String c r ++ String LF more)%js
      with (String c (r ++ String LF more)).
    cbn [change_id_from]. rewrite Hc. now apply IH.
Qed.

Lemma change_id_from_plain_line (line more : string) :
  plain_line line = true ->
  change_id_from true (line ++ String LF more) = change_id_from true more.
Proof.
  unfold plain_line. intros H. apply andb_prop in H. destruct H as [Hterm Hpre].
  apply negb_true_iff in Hterm.
  destruct (strip_prefix "Change-Id:" line) eqn:Hstrip; [discriminate|].
  assert (Hhere : change_id_here (line ++ String LF more) = None).
  { unfold change_id_here.
    now rewrite (strip_prefix_line "Change-Id:" line more LF eq_refl Hstrip). }
  destruct line as [|c r].
  - change (EmptyString ++ String LF more)%js with (String LF more) in *.
    cbn [change_id_from]. now rewrite Hhere.
  - change (String c r ++ String LF more)%js
      with (String c (r ++ String LF more)) in *.
    cbn [change_id_from]. rewrite Hhere.
    simpl in Hterm. apply orb_false_iff in Hterm. destruct Hterm as [Hc Hr].
    rewrite Hc. now apply change_id_from_rest_of_line.
Qed.

Lemma append_assoc (a b c : string) :
  ((a ++ b) ++ c)%js = (a ++ (b ++ c))%js.
Proof. induction a as [|x a IH]; [reflexivity|]. simpl. now rewrite IH. Qed.

Lemma change_id_from_plain_lines (body : list string) (more : string) :
  forallb plain_line body = true ->
  change_id_from true (unlines body ++ more) = change_id_from true more.
Proof.
  induction body as [|line body IH]; intros H; [reflexivity|].
  simpl in H. apply andb_prop in H. destruct H as [Hl Hb].
  cbn [unlines fold_right].
  change (fold_right (fun l out => (l ++ String LF out)%js) EmptyString body)
    with (unlines body).
  rewrite append_assoc.
  change (String LF (unlines body) ++ more)%js
    with (String LF (unlines body ++ more)).
  rewrite (change_id_from_plain_line line _ Hl). now apply IH.
Qed.

Lemma change_id_from_no_terminator (line : string) :
  existsb line_terminator (chars line) = false ->
  change_id_from false line = None.
Proof.
  induction line as [|c r IH]; intros H; [reflexivity|].
  simpl in H. apply orb_false_iff in H. destruct H as [Hc Hr].
  cbn [change_id_from]. rewrite Hc. now apply IH.
Qed.

Section ChangeIdFacts.

Context {World : Type} (spawn_sync : list string -> World -> SpawnResult * World).

(** X5.  An id that [getChangeId] returns is an [I] followed by a
    non-empty run of lower-case letters and digits. *)
Theorem getChangeId_well_formed (commit id : string) (w w' : World) :
  getChangeId spawn_sync commit w = (Ok (Some id), w') ->
  change_id id = true.
Proof.
  unfold getChangeId, bind.
  destruct (commitInfo spawn_sync commit "%b" w) as [[message|e] w1];
    [|discriminate].
  unfold ret. intros H. injection H as H _.
  now apply change_id_from_sound in H.
Qed.


(** X7.  [getChangeId] returns [null] for a message none of whose
    lines starts with [Change-Id:]. *)
Theorem getChangeId_null_without_trailer (commit : string) (w w' : World)
    (result : SpawnResult) (body : list string) (last : string) :
  spawn_sync ["show"; "--no-patch"; "--format=%b"; commit] w = (result, w') ->
  status result = 0%Z ->
  trimRight (stdout result) = (unlines body ++ last)%js ->
  forallb plain_line body = true ->
  plain_line last = true ->
  getChangeId spawn_sync commit w = (Ok None, w').
Proof.
  intros Hs Hst Hout Hbody Hlast. unfold getChangeId, commitInfo.
  erewrite bind_ok; [| apply (exec_zero spawn_sync _ w w' result);
                       [exact Hs | exact Hst]].
  unfold ret, match_change_id. rewrite Hout.
  rewrite (change_id_from_plain_lines body _ Hbody).
  unfold plain_line in Hlast. apply andb_prop in Hlast.
  destruct Hlast as [Hterm Hpre]. apply negb_true_iff in Hterm.
  assert (Hhere : change_id_here last = None).
  { unfold change_id_here.
    destruct (strip_prefix "Change-Id:" last); [discriminate | reflexivity]. }
  destruct last as [|c r]; cbn [change_id_from]; rewrite Hhere;
    [reflexivity|].
  simpl in Hterm. apply orb_false_iff in Hterm. destruct Hterm as [Hc Hr].
  rewrite Hc. now rewrite (change_id_from_no_terminator r Hr).
Qed.

End ChangeIdFacts.

Lemma getChangeId_well_formed_witness : change_id "I0a1b2c" = true.
Proof.
  apply (getChangeId_well_formed
           (answering ("Fix the parser" ++ newline ++ newline
                       ++ "Change-Id: I0a1b2c" ++ newline))
           "HEAD" "I0a1b2c" tt tt).
  reflexivity.
Defined.


Lemma getChangeId_null_without_trailer_witness :
  getChangeId
    (answering ("Fix the parser" ++ newline ++ newline
                ++ "See Change-Id: Iabc" ++ newline))
    "HEAD" tt
  = (Ok None, tt).
Proof.
  apply (getChangeId_null_without_trailer
           (answering ("Fix the parser" ++ newline ++ newline
                       ++ "See Change-Id: Iabc" ++ newline))
           "HEAD" tt tt
           (mkSpawnResult 0
              ("Fix the parser" ++ newline ++ newline
               ++ "See Change-Id: Iabc" ++ newline) "")
           ["Fix the parser"; ""] "See Change-Id: Iabc");
    reflexivity.
Defined.

(** ** Remote branch names *)

Lemma remote_here_no_slash (s : string) :
  contains "/" s = false -> remote_here s = None.
Proof.
  induction s as [|c r IH]; intros H; [reflexivity|].
  rewrite contains_cons in H. apply orb_false_iff in H. destruct H as [Hc Hr].
  cbn [remote_here]. rewrite char_eqb_sym, Hc, (IH Hr).
  now destruct (dot_matches c).
Qed.

Lemma remote_match_no_slash (s : string) :
  contains "/" s = false -> remote_match s = None.
Proof.
  induction s as [|c r IH]; intros H; [reflexivity|].
  cbn [remote_match]. rewrite (remote_here_no_slash _ H).
  rewrite contains_cons in H. apply orb_false_iff in H. now apply IH.
Qed.

Lemma remote_match_slash (s : string) :
  contains "/" s = true -> exists m, remote_match s = Some m.
Proof.
  induction s as [|c r IH]; intros H; [discriminate|].
  cbn [remote_match].
  destruct (remote_here (String c r)) as [m|] eqn:Hhere; [eauto|].
  rewrite contains_cons in H. apply orb_prop in H. destruct H as [Hc|Hr].
  - cbn [remote_here] in Hhere. rewrite char_eqb_sym, Hc in Hhere.
    discriminate.
  - now apply IH.
Qed.

(** X8.  [parsedRemote] throws a [TypeError] exactly on the names
    without a slash. *)
Theorem parsedRemote_throws_iff_no_slash (name : string) :
  branch_parsedRemote name = Throw TypeError <-> contains "/" name = false.
Proof.
  unfold branch_parsedRemote. split.
  - intros H. destruct (contains "/" name) eqn:Hc; [|reflexivity].
    destruct (remote_match_slash name Hc) as ([remote branch] & E).
    rewrite E in H. discriminate.
  - intros H. now rewrite (remote_match_no_slash name H).
Qed.

(** X9.  [parsedRemote] takes a name apart at its first slash: from a
    remote without a slash and a branch, neither with a line
    terminator, joined by a slash, it gives the two back; the branch
    may contain slashes. *)
Theorem parsedRemote_round_trip (remote branch : string) :
  contains "/" remote = false ->
  forallb dot_matches (chars remote) = true ->
  forallb dot_matches (chars branch) = true ->
  branch_parsedRemote (remote ++ String "/" branch) = Ok (remote, branch).
Proof.
  intros Hslash Hremote Hbranch. unfold branch_parsedRemote.
  assert (Hhere : remote_here (remote ++ String "/" branch)
                  = Some (remote, branch)).
  { induction remote as [|c r IH].
    - change (EmptyString ++ String "/" branch)%js
        with (String "/" branch).
      cbn [remote_here]. rewrite char_eqb_refl. unfold dots.
      replace branch with (branch ++ EmptyString)%js at 1
        by (clear; induction branch as [|x b IHb];
            [reflexivity | simpl; now rewrite IHb]).
      now rewrite (span_app dot_matches branch EmptyString Hbranch eq_refl).
    - rewrite contains_cons in Hslash. apply orb_false_iff in Hslash.
      destruct Hslash as [Hc Hr].
      simpl in Hremote. apply andb_prop in Hremote.
      destruct Hremote as [Hdc Hdr].
      change (String c r ++ String "/" branch)%js
        with (String c (r ++ String "/" branch)).
      cbn [remote_here]. rewrite char_eqb_sym, Hc, Hdc, (IH Hr Hdr).
      reflexivity. }
  destruct (remote ++ String "/" branch)%js as [|c r] eqn:E;
    cbn [remote_match]; now rewrite Hhere.
Qed.

Lemma parsedRemote_round_trip_witness :
  branch_parsedRemote "origin/feature/login" = Ok ("origin", "feature/login").
Proof.
  apply (parsedRemote_round_trip "origin" "feature/login"); reflexivity.
Defined.

(** ** Streaming and synchronous argument lists *)

(** X10.  For argument lists that nest one level at most (a single
    array whose elements are strings or arrays of strings, or strings
    and arrays of strings that start with a string), the streaming
    operation spawns the child with the very arguments that [run]
    would pass. *)
Theorem show_args_agrees_with_run (arguments : list arg) :
  shallow arguments ->
  show_args arguments = map Str (flattenDeep arguments).
Proof.
  destruct arguments as [|a rest]; intros H; [reflexivity|].
  destruct a as [s|l].
  - apply (flatten_shallow (Str s :: rest)). exact H.
  - destruct rest as [|b rest]; [|contradiction].
    rewrite flattenDeep_group. apply flatten_shallow. exact H.
Qed.

Lemma show_args_agrees_with_run_witness :
  show_args [Str "log"; Group [Str "--format"; Str "%h"]; Str "HEAD"]
  = map Str ["log"; "--format"; "%h"; "HEAD"].
Proof.
  apply (show_args_agrees_with_run
           [Str "log"; Group [Str "--format"; Str "%h"]; Str "HEAD"]).
  repeat constructor.
Defined.

(** ** Removal of matching values and sections *)

Lemma intersection_nil_r (array : list string) : intersection array [] = [].
Proof.
  unfold intersection. simpl List.length. rewrite Nat.min_0_r.
  destruct array; reflexivity.
Qed.

Lemma add_line_nonempty (m : jsobject) (p : string * option string) :
  add_line m p <> [].
Proof.
  unfold add_line. destruct (own (fst p) m) eqn:E.
  - destruct m as [|[k vs] m]; [discriminate|]. simpl.
    destruct (String.eqb k (fst p)); discriminate.
  - destruct m; discriminate.
Qed.

Lemma fold_add_line_nonempty (ps : list (string * option string)) (m : jsobject) :
  m <> [] -> fold_left add_line ps m <> [].
Proof.
  revert m. induction ps as [|p ps IH]; intros m H; [exact H|].
  simpl. apply IH, add_line_nonempty.
Qed.

(** An object with a property has a key. *)
Lemma own_keys_nil (m : jsobject) : own_keys m = [] -> m = [].
Proof.
  destruct m as [|[k vs] m]; [reflexivity|].
  unfold own_keys. cbn [map fst indexed filter]. intros H.
  apply app_eq_nil in H. destruct H as [H1 H2].
  destruct (array_index k) as [n|]; [|discriminate H2].
  cbn [fold_right] in H1. apply map_eq_nil in H1.
  destruct (fold_right insert_index [] (indexed (map fst m))) as [|y r];
    cbn [insert_index] in H1; [discriminate|].
  destruct (N.leb (fst (n, k)) (fst y)); discriminate.
Qed.

Section MissFacts.

Context {World : Type} (spawn_sync : list string -> World -> SpawnResult * World).

(** X11.  [unsetMatching] on a key whose lookup fails (the key has no
    value) removes nothing and returns the empty list: only the read
    reaches the executable, and nothing is thrown, where [unset] on
    such a key throws. *)
Theorem config_unsetMatching_miss_is_noop
    (key : string) (values : jsval) (o : options) (w : World) :
  status (fst (spawn_sync (get_command key (with_all o)) w)) <> 0%Z ->
  config_unsetMatching spawn_sync key values o w
  = (Ok [], snd (spawn_sync (get_command key (with_all o)) w)).
Proof.
  intros Hst. unfold config_unsetMatching.
  erewrite bind_ok; [| now apply config_get_miss].
  cbn [all with_all orb array_like]. rewrite intersection_nil_r.
  reflexivity.
Qed.

(** X12.  [sectionExists] and [subsections] agree: on the regex read
    of the section's pattern, [sectionExists] is [true] exactly when
    the lookup succeeds, and [subsections] returns the empty list
    exactly when it fails. *)
Theorem sectionExists_iff_subsections (section : string) (o : options)
    (w w' : World) (result : SpawnResult) :
  all o = false ->
  spawn_sync (get_command (section_pattern section) (with_regex o)) w
  = (result, w') ->
  ((status result =? 0)%Z = true ->
   forallb parsable_line (output_lines result) = true) ->
  config_sectionExists spawn_sync section o w
  = (Ok (status result =? 0)%Z, w')
  /\ exists l,
       config_subsections spawn_sync section o w = (Ok l, w')
       /\ (l = [] <-> (status result =? 0)%Z = false).
Proof.
  intros Hall Hs Hp. rewrite config_subsections_unfold.
  unfold config_sectionExists.
  change ("^" ++ section ++ "\.")%js with (section_pattern section).
  destruct (Z.eqb_spec (status result) 0) as [Hz|Hnz].
  - specialize (Hp eq_refl).
    pose proof (config_get_regex_ok spawn_sync (section_pattern section)
                  (with_regex o) w w' result eq_refl Hall Hs Hz Hp) as Hget.
    assert (Hne : fold_left add_line
                    (map split_first_space (output_lines result)) [] <> []).
    { unfold output_lines.
      destruct (split LF (trimRight (stdout result))) as [|line lines] eqn:E;
        [now apply split_nonempty in E|].
      simpl. apply fold_add_line_nonempty, add_line_nonempty. }
    split.
    + erewrite bind_ok; [| exact Hget]. unfold ret.
      destruct (fold_left add_line _ []); [contradiction | reflexivity].
    + eexists. split; [erewrite bind_ok; [| exact Hget]; reflexivity|].
      cbn [keys]. split; [|discriminate].
      intros Hnil. apply map_eq_nil in Hnil. apply own_keys_nil in Hnil.
      contradiction.
  - assert (Hst : status (fst (spawn_sync
                                 (get_command (section_pattern section)
                                    (with_regex o)) w)) <> 0%Z)
      by now rewrite Hs.
    pose proof (config_get_miss spawn_sync (section_pattern section)
                  (with_regex o) w Hst) as Hget.
    rewrite Hs in Hget. cbn [snd regex with_regex orb] in Hget.
    rewrite orb_true_r in Hget.
    split.
    + erewrite bind_ok; [| exact Hget]. reflexivity.
    + exists []. split; [erewrite bind_ok; [| exact Hget]; reflexivity|].
      split; reflexivity.
Qed.

End MissFacts.

Lemma config_unsetMatching_miss_is_noop_witness :
  config_unsetMatching GitSim.git "k.v" (JArr ["a"; "b"]) no_options
    GitSim.empty
  = (Ok [], GitSim.mkWorld [] [] [["config"; "--get-all"; "k.v"]]).
Proof.
  apply (config_unsetMatching_miss_is_noop GitSim.git "k.v" (JArr ["a"; "b"])
           no_options GitSim.empty).
  vm_compute. discriminate.
Defined.

Lemma sectionExists_iff_subsections_witness :
  config_sectionExists GitSim.git "remote" no_options remote_example
  = (Ok true,
     snd (GitSim.git (get_command (section_pattern "remote")
                        (with_regex no_options)) remote_example))
  /\ exists l,
       config_subsections GitSim.git "remote" no_options remote_example
       = (Ok l,
          snd (GitSim.git (get_command (section_pattern "remote")
                             (with_regex no_options)) remote_example))
       /\ (l = [] <-> true = false).
Proof.
  apply (sectionExists_iff_subsections GitSim.git "remote" no_options
           remote_example
           (snd (GitSim.git (get_command (section_pattern "remote")
                               (with_regex no_options)) remote_example))
           (fst (GitSim.git (get_command (section_pattern "remote")
                               (with_regex no_options)) remote_example)));
    reflexivity.
Defined.

(** ** Reads and writes against the in-memory store *)

Module SimReads.
Import GitSim SimFacts.

Lemma get_flags_options (o : options) :
  forallb is_option (get_flags o) = true.
Proof.
  unfold get_flags, scope_flags.
  destruct (global o), (local o), (all o), (regex o); reflexivity.
Qed.

Lemma get_flags_passable (o : options) :
  forallb passable (get_flags o) = true.
Proof.
  unfold get_flags, scope_flags.
  destruct (global o), (local o), (all o), (regex o); reflexivity.
Qed.

Lemma get_flags_well_formed (o : options) :
  map to_well_formed (get_flags o) = get_flags o.
Proof.
  unfold get_flags, scope_flags.
  destruct (global o), (local o), (all o), (regex o); reflexivity.
Qed.

(** What stands for a surrogate is no dash. *)
Lemma is_option_well_formed (key : string) :
  is_option key = false -> is_option (to_well_formed key) = false.
Proof.
  destruct key as [|c r]; [reflexivity|]. cbn [to_well_formed is_option].
  intros Hc.
  destruct (high_surrogate c).
  - destruct r as [|d r']; [reflexivity|].
    destruct (low_surrogate d); [exact Hc | reflexivity].
  - destruct (low_surrogate c); [reflexivity | exact Hc].
Qed.

Lemma config_cmd_get (key : string) (o : options) (w : world) :
  store_key key = true -> is_option key = false ->
  config_cmd (get_flags o ++ [key]) w
  = let g := global o in
    let l := local o in
    if g && l
    then (failed 129 "error: only one config file at a time", w)
    else if all o && regex o
    then (failed 129 "usage: git config [<options>]", w)
    else if all o
    then match values_of key (read_view g l w) with
         | [] => (failed 1 "", w)
         | v :: vs => (ok (print_values (v :: vs)), w)
         end
    else if regex o
    then match filter (fun e => re_match key (fst e)) (read_view g l w) with
         | [] => (failed 1 "", w)
         | e :: es => (ok (print_entries (e :: es)), w)
         end
    else match rev (values_of key (read_view g l w)) with
         | v :: _ => (ok (v ++ String LF EmptyString)%js, w)
         | [] => (failed 1 "", w)
         end.
Proof.
  intros Hkey Hk. unfold config_cmd.
  destruct (store_key_accepted key Hkey) as (Herr & Hcanon & _).
  rewrite (leading_options_flags (get_flags o) [] key (get_flags_options o) Hk).
  rewrite !(values_of_lookup key _ Hkey).
  unfold get_flags, scope_flags.
  destruct (global o), (local o), (all o), (regex o);
    cbn; rewrite ?Herr, ?Hcanon; reflexivity.
Qed.

(** A lookup changes no file, whatever the key. *)
Lemma config_cmd_get_world (key : string) (o : options) (w : world) :
  is_option key = false ->
  snd (config_cmd (get_flags o ++ [key]) w) = w.
Proof.
  intros Hk. unfold config_cmd.
  rewrite (leading_options_flags (get_flags o) [] key (get_flags_options o) Hk).
  unfold get_flags, scope_flags.
  destruct (global o), (local o), (all o), (regex o); cbn;
    try reflexivity;
    try (destruct (key_error key) as [[st msg]|]; [reflexivity|]);
    try (destruct (rev _); reflexivity);
    try (destruct (lookup _ _); reflexivity);
    try (destruct (filter _ _); reflexivity).
Qed.

(** The lookup of a read changes nothing but the log. *)
Lemma git_get_logged (key : string) (o : options) (w : world) :
  is_option key = false ->
  snd (git (get_command key o) w) = logged (get_command key o) w.
Proof.
  intros Hk. unfold git, get_command. cbv zeta.
  destruct (existsb _ _); [reflexivity|].
  cbn [map]. rewrite map_app, get_flags_well_formed. cbn [map].
  change (to_well_formed "config") with "config". unfold dispatch.
  apply config_cmd_get_world. now apply is_option_well_formed.
Qed.

Lemma config_get_world (key : string) (o : options) (w : world) :
  snd (config_get git key o w) = snd (git (get_command key o) w).
Proof.
  unfold config_get. rewrite exec_unfold, get_command_flatten.
  destruct (git (get_command key o) w) as [result w'].
  destruct (status result =? 0)%Z.
  - destruct (all o); [reflexivity|].
    destruct (regex o); [|reflexivity].
    destruct (regex_lines [] _); reflexivity.
  - destruct (all o || regex o); reflexivity.
Qed.

(** What a read sees of a key after the writes of [set]: what the
    global file holds when no scope is given, then what the scope's
    file holds. *)
Lemma read_view_values (key : string) (o : options) (w : world) :
  one_scope o = true ->
  values_of key (read_view (global o) (local o) w)
  = seen_before key o w ++ values_of key (write_file (global o) w).
Proof.
  unfold one_scope, seen_before, read_view, write_file.
  destruct (global o), (local o); intros H; try discriminate;
    try reflexivity.
  apply SimFacts.values_of_app.
Qed.

Lemma read_view_logged (g l : bool) (args : list string) (w : world) :
  read_view g l (logged args w) = read_view g l w.
Proof. destruct g, l; reflexivity. Qed.

Lemma seen_before_add_steps (key : string) (o : options) (vals : list string)
    (w : world) :
  one_scope o = true ->
  seen_before key o (add_steps key o vals w) = seen_before key o w.
Proof.
  unfold one_scope, seen_before. intros H.
  pose proof (SimFacts.other_file_add_steps key o vals w) as Hother.
  destruct (global o), (local o); try discriminate; try reflexivity.
  simpl in Hother. simpl. now rewrite Hother.
Qed.

Lemma seen_before_unset_all_step (key : string) (o : options) (w : world) :
  one_scope o = true ->
  seen_before key o (unset_all_step key o w) = seen_before key o w.
Proof.
  unfold one_scope, seen_before, unset_all_step.
  destruct (global o), (local o); intros H; try discriminate; reflexivity.
Qed.

(** The values of the key that a read sees once [set] has replaced
    them. *)
Lemma values_after_replace (key : string) (o : options) (vals : list string)
    (w : world) :
  store_key key = true -> one_scope o = true ->
  values_of key (read_view (global o) (local o)
                   (add_steps key o vals (unset_all_step key o w)))
  = seen_before key o w ++ vals.
Proof.
  intros Hkey Hs. rewrite (read_view_values key o _ Hs).
  rewrite (seen_before_add_steps key o vals _ Hs),
    (seen_before_unset_all_step key o w Hs).
  f_equal. rewrite (SimFacts.values_of_add_steps key o vals _ Hkey).
  unfold unset_all_step.
  now rewrite SimFacts.write_file_with, SimFacts.values_of_remove_key.
Qed.

(** *** Printing and reading back *)

Lemma split_no_sep (sep : char) (v : string) :
  contains sep v = false -> split sep v = [v].
Proof.
  induction v as [|c r IH]; intros H; [reflexivity|].
  rewrite contains_cons in H. apply orb_false_iff in H. destruct H as [Hc Hr].
  cbn [split]. rewrite char_eqb_sym, Hc, (IH Hr). reflexivity.
Qed.

Lemma split_app_sep (sep : char) (v rest : string) :
  contains sep v = false ->
  split sep (v ++ String sep rest) = v :: split sep rest.
Proof.
  induction v as [|c r IH]; intros H.
  - change (EmptyString ++ String sep rest)%js with (String sep rest).
    cbn [split]. now rewrite char_eqb_refl.
  - rewrite contains_cons in H. apply orb_false_iff in H.
    destruct H as [Hc Hr].
    change (String c r ++ String sep rest)%js
      with (String c (r ++ String sep rest)).
    cbn [split]. rewrite char_eqb_sym, Hc, (IH Hr). reflexivity.
Qed.

Lemma trimRight_app_nonblank (a x : string) :
  trimRight x <> EmptyString ->
  trimRight (a ++ x) = (a ++ trimRight x)%js.
Proof.
  intros Hx. induction a as [|c a IH]; [reflexivity|].
  change (String c a ++ x)%js with (String c (a ++ x)).
  rewrite trimRight_cons, IH.
  change (String c a ++ trimRight x)%js
    with (String c (a ++ trimRight x)).
  destruct (a ++ trimRight x)%js as [|b r] eqn:E; [|reflexivity].
  destruct a; [|discriminate]. simpl in E. contradiction.
Qed.

Lemma print_values_cons (v : string) (vs : list string) :
  print_values (v :: vs) = (v ++ String LF (print_values vs))%js.
Proof. reflexivity. Qed.

(** Values that survive the read come back from the printed output. *)
Lemma print_values_read_back (vs : list string) :
  vs <> [] -> survives_read vs = true ->
  split LF (trimRight (print_values vs)) = vs
  /\ trimRight (print_values vs) <> EmptyString.
Proof.
  induction vs as [|v vs IH]; intros Hne Hs; [contradiction|].
  cbn [survives_read] in Hs. apply andb_prop in Hs. destruct Hs as [Hlf Hs].
  apply negb_true_iff in Hlf. rewrite print_values_cons.
  destruct vs as [|v' vs'].
  - apply andb_prop in Hs. destruct Hs as [Hv Hsp].
    apply negb_true_iff in Hv. apply negb_true_iff in Hsp.
    change (v ++ String LF (print_values []))%js with (v ++ newline)%js.
    rewrite trimRight_newline, (trimRight_fixed v Hsp).
    split; [now apply split_no_sep|].
    intros E. subst v. discriminate.
  - destruct (IH ltac:(discriminate) Hs) as [Hsplit Hnb].
    assert (Hnb' : trimRight (String LF (print_values (v' :: vs'))) <> "").
    { rewrite trimRight_cons.
      destruct (trimRight (print_values (v' :: vs'))); [contradiction|].
      discriminate. }
    assert (Htrim : trimRight (String LF (print_values (v' :: vs')))
                    = String LF (trimRight (print_values (v' :: vs')))).
    { rewrite trimRight_cons.
      destruct (trimRight (print_values (v' :: vs'))); [contradiction|].
      reflexivity. }
    rewrite (trimRight_app_nonblank v _ Hnb'), Htrim.
    split.
    + rewrite (split_app_sep LF v _ Hlf). now rewrite Hsplit.
    + destruct v; discriminate.
Qed.

End SimReads.

Module SimGets.
Import GitSim SimFacts SimReads.

Lemma git_get (key : string) (o : options) (w : world) :
  passable key = true ->
  git (get_command key o) w
  = config_cmd (get_flags o ++ [key]) (logged (get_command key o) w).
Proof.
  intros Hp. unfold get_command. apply git_config.
  rewrite forallb_app, get_flags_passable. cbn [forallb]. now rewrite Hp.
Qed.

(** A single-value read of a key that the read sees values of: the
    last one, trimmed. *)
Lemma config_get_last (key : string) (o : options) (w : world)
    (init : list string) (v : string) :
  store_key key = true -> is_option key = false -> one_scope o = true ->
  all o = false -> regex o = false ->
  values_of key (read_view (global o) (local o) w) = init ++ [v] ->
  config_get git key o w
  = (Ok (GStr (trimRight v)), logged (get_command key o) w).
Proof.
  intros Hkey Hk Hs Hall Hre Hv. unfold one_scope in Hs.
  apply negb_true_iff in Hs.
  destruct (store_key_accepted key Hkey) as (_ & _ & Hpass).
  unfold config_get.
  rewrite exec_unfold, get_command_flatten, (git_get key o w Hpass),
    (config_cmd_get key o _ Hkey Hk).
  cbv zeta. rewrite Hs, Hall, Hre. cbn [andb].
  rewrite read_view_logged, Hv, rev_app_distr. cbn [rev app].
  cbn [status ok Z.eqb stdout].
  change (v ++ String LF EmptyString)%js with (v ++ newline)%js.
  now rewrite trimRight_newline.
Qed.

(** A read of every value of a key: the values that the read sees,
    when they survive the printing and the trimming. *)
Lemma config_get_every (key : string) (o : options) (w : world) :
  store_key key = true -> is_option key = false -> one_scope o = true ->
  all o = true -> regex o = false ->
  survives_read (values_of key (read_view (global o) (local o) w)) = true ->
  config_get git key o w
  = (Ok (GList (values_of key (read_view (global o) (local o) w))),
     logged (get_command key o) w).
Proof.
  intros Hkey Hk Hs Hall Hre Hsurv. unfold one_scope in Hs.
  apply negb_true_iff in Hs.
  destruct (store_key_accepted key Hkey) as (_ & _ & Hpass).
  unfold config_get.
  rewrite exec_unfold, get_command_flatten, (git_get key o w Hpass),
    (config_cmd_get key o _ Hkey Hk).
  cbv zeta. rewrite Hs, Hall, Hre. cbn [andb].
  rewrite read_view_logged.
  destruct (values_of key (read_view (global o) (local o) w))
    as [|v vs] eqn:Hv.
  - reflexivity.
  - cbn [status ok Z.eqb stdout].
    destruct (print_values_read_back (v :: vs) ltac:(discriminate) Hsurv)
      as [Hsplit _].
    now rewrite Hsplit.
Qed.

End SimGets.

Section AppendFacts.

Context {World : Type} (spawn_sync : list string -> World -> SpawnResult * World).

(** The values that the store holds for the key in the scope. *)
Variable held : World -> list string.

(** X13.  [config.add] without [unique] never removes a value and
    reads nothing: whatever the executable does, it runs one write
    per requested value, in order and up to the first write that
    fails, and nothing else, and returns the requested values when
    every write succeeds.  When each successful write appends its
    value to the values of the key, the store then holds for the key
    the values it held followed by the requested values. *)
Theorem config_add_appends (key : string) (values : jsval) (o : options)
    (w : World) :
  unique o = false ->
  let r := run_all spawn_sync (map (add_command key o) (castArray values)) w in
  config_add spawn_sync key values o w = writes_outcome (castArray values) r
  /\ ((forall v w0,
         In v (castArray values) ->
         status (fst (spawn_sync (add_command key o v) w0)) = 0%Z ->
         held (snd (spawn_sync (add_command key o v) w0)) = held w0 ++ [v]) ->
      fst r = None ->
      held (snd r) = held w ++ castArray values).
Proof.
  intros Huniq r. subst r. split.
  - unfold config_add. rewrite config_set_runs.
    unfold values_to_write, before_writes. cbn [add unique with_add negb andb].
    rewrite Huniq. reflexivity.
  - intros Hwrite.
    apply (run_all_held spawn_sync held key o (castArray values) Hwrite).
    intros x Hx. exact Hx.
Qed.

End AppendFacts.

Lemma config_add_appends_witness :
  config_add GitSim.git "remote.origin.fetch" (JArr ["b"; "c"]) no_options
    (GitSim.mkWorld []
       [("remote.origin.fetch", "a"); ("user.name", "n")] [])
  = (Ok ["b"; "c"],
     GitSim.mkWorld []
       [("remote.origin.fetch", "a"); ("remote.origin.fetch", "b");
        ("remote.origin.fetch", "c"); ("user.name", "n")]
       [["config"; "--add"; "remote.origin.fetch"; "b"];
        ["config"; "--add"; "remote.origin.fetch"; "c"]])
  /\ GitSim.values_of "remote.origin.fetch"
       [("remote.origin.fetch", "a"); ("remote.origin.fetch", "b");
        ("remote.origin.fetch", "c"); ("user.name", "n")]
     = ["a"; "b"; "c"].
Proof.
  destruct (config_add_appends GitSim.git
              (fun w => GitSim.values_of "remote.origin.fetch"
                          (GitSim.local_file w))
              "remote.origin.fetch" (JArr ["b"; "c"]) no_options
              (GitSim.mkWorld []
                 [("remote.origin.fetch", "a"); ("user.name", "n")] [])
              eq_refl)
    as (Hadd & Hheld).
  split; [exact Hadd|].
  apply Hheld; [| reflexivity].
  intros v w0 Hin _.
  apply (SimFacts.git_add_appends "remote.origin.fetch" no_options v w0);
    try reflexivity.
  destruct Hin as [<-|[<-|[]]]; reflexivity.
Defined.



(** X15.  A read never changes the configuration: against the
    in-memory store, whatever the options and the outcome,
    [config.get] leaves both files as they were and runs the one
    lookup command. *)
Theorem config_get_changes_no_file (key : string) (o : options)
    (w : GitSim.world) :
  GitSim.is_option key = false ->
  let w' := snd (config_get GitSim.git key o w) in
  GitSim.global_file w' = GitSim.global_file w
  /\ GitSim.local_file w' = GitSim.local_file w
  /\ GitSim.log w' = GitSim.log w ++ [get_command key o].
Proof.
  intros Hk w'. subst w'.
  rewrite SimReads.config_get_world, (SimReads.git_get_logged key o w Hk).
  repeat split.
Qed.

Lemma config_get_changes_no_file_witness :
  let w := GitSim.mkWorld [("a.b", "g")] [("a.b", "l"); ("a.c", "")] [] in
  let w' := snd (config_get GitSim.git "^a\." (with_regex no_options) w) in
  GitSim.global_file w' = [("a.b", "g")]
  /\ GitSim.local_file w' = [("a.b", "l"); ("a.c", "")]
  /\ GitSim.log w' = [["config"; "--get-regexp"; "^a\."]].
Proof.
  apply (config_get_changes_no_file "^a\." (with_regex no_options)
           (GitSim.mkWorld [("a.b", "g")] [("a.b", "l"); ("a.c", "")] [])).
  reflexivity.
Defined.

Module SimRoundTrip.
Import GitSim SimFacts SimReads SimGets.

Lemma config_key_store (key : string) :
  config_key key = true -> store_key key = true /\ is_option key = false.
Proof.
  unfold config_key. intros H. apply andb_prop in H. destruct H as [Hs Hc].
  split; [exact Hs|]. destruct key as [|c r]; [reflexivity|].
  cbn [is_option]. destruct (char_eqb_spec c "-") as [->|_];
    [discriminate Hc | reflexivity].
Qed.

Lemma storable_passable (vals : list string) :
  forallb storable vals = true -> forallb passable vals = true.
Proof.
  induction vals as [|v vals IH]; [reflexivity|]. cbn [forallb].
  intros H. apply andb_prop in H. destruct H as [Hv Hr].
  unfold storable in Hv. apply andb_prop in Hv. destruct Hv as [Hv _].
  now rewrite Hv, (IH Hr).
Qed.

(** The replace mode against the store. *)
Lemma config_set_replace (key : string) (values : jsval) (o : options)
    (w : world) :
  add o = false -> store_key key = true -> is_option key = false ->
  one_scope o = true -> forallb passable (castArray values) = true ->
  config_set git key values o w
  = (Ok (castArray values),
     add_steps key o (castArray values) (unset_all_step key o w)).
Proof.
  intros Hadd Hkey Hk Hs Hv. rewrite config_set_runs.
  unfold values_to_write, before_writes. rewrite Hadd. cbn [negb andb].
  rewrite (git_unset_all_state key o w Hkey Hk Hs),
    (run_all_add_steps key o _ _ Hkey Hk Hs Hv).
  reflexivity.
Qed.

End SimRoundTrip.





Section UniqueFacts.

Context {World : Type} (spawn_sync : list string -> World -> SpawnResult * World).

(** X18.  What a unique append writes and returns is the requested
    values that its read of the key did not show, in the order of the
    request: whatever the executable does, it runs the read, then one
    write per such value, in order and up to the first write that
    fails, and returns these values when every write succeeds; every
    one of them was requested, and none was among the values read. *)
Theorem config_set_unique_writes_only_new
    (key : string) (values : jsval) (o : options) (w : World) :
  add o = true -> unique o = true ->
  let new := difference (castArray values)
               (current_values spawn_sync key o w) in
  config_set spawn_sync key values o w
  = writes_outcome new
      (run_all spawn_sync (map (add_command key o) new)
         (snd (spawn_sync (get_command key (with_all o)) w)))
  /\ forall x,
       In x new
       <-> In x (castArray values)
           /\ ~ In x (current_values spawn_sync key o w).
Proof.
  intros Hadd Huniq new. subst new. split.
  - rewrite config_set_runs. unfold values_to_write, before_writes.
    rewrite Hadd, Huniq. reflexivity.
  - intros x. apply difference_In.
Qed.

End UniqueFacts.

Lemma config_set_unique_writes_only_new_witness :
  config_set GitSim.git "k.v" (JArr ["a"; "b"; "c"])
    (mkOptions false false false false true true)
    (GitSim.mkWorld [] [("k.v", "a"); ("k.v", "z")] [])
  = (Ok ["b"; "c"],
     GitSim.mkWorld []
       [("k.v", "a"); ("k.v", "z"); ("k.v", "b"); ("k.v", "c")]
       [["config"; "--get-all"; "k.v"];
        ["config"; "--add"; "k.v"; "b"];
        ["config"; "--add"; "k.v"; "c"]])
  /\ forall x,
       In x ["b"; "c"]
       <-> In x ["a"; "b"; "c"]
           /\ ~ In x (current_values GitSim.git "k.v"
                        (mkOptions false false false false true true)
                        (GitSim.mkWorld [] [("k.v", "a"); ("k.v", "z")] [])).
Proof.
  apply (config_set_unique_writes_only_new GitSim.git "k.v"
           (JArr ["a"; "b"; "c"])
           (mkOptions false false false false true true)
           (GitSim.mkWorld [] [("k.v", "a"); ("k.v", "z")] []));
    reflexivity.
Defined.
